(** * Truth-py: the number analysis engine (truth.py) and the letter-index
      codec (true.py), embedded in Rocq.

    The development has three layers.

    - [Py]: the fragment of the Python 3 host semantics the two programs
      rely on: exceptions, unbounded integers, ASCII text and its [str]
      methods, [int(text, base)], binary64 conversion and [math.sqrt]
      (through the Standard Library's [SpecFloat]), loops run on fuel.
    - [Truth]: the functions of truth.py, one definition per [def].
    - [Codec]: the functions of true.py.

    Definitions come first, statements and proofs follow. *)

From Stdlib Require Import ZArith List Bool String Ascii Lia Znumtheory Sorted.
From Stdlib Require Import Floats.SpecFloat.
Import ListNotations.

Set Implicit Arguments.
Open Scope string_scope.
Open Scope list_scope.
Open Scope Z_scope.

(* ===================================================================== *)
(** * Host semantics *)
(* ===================================================================== *)

Module Py.

(** The built-in exceptions the two programs can meet. *)
Inductive exn : Type :=
| ValueError
| IndexError
| OverflowError
| OSError.

(** What evaluating an expression yields: a value, or a raised exception. *)
Inductive outcome (A : Type) : Type :=
| Ok (a : A)
| Raise (e : exn).
Arguments Ok {A} a.
Arguments Raise {A} e.

Definition obind {A B} (c : outcome A) (k : A -> outcome B) : outcome B :=
  match c with
  | Ok a => k a
  | Raise e => Raise e
  end.

(** A computation that may loop takes fuel: [None] means that the fuel ran
    out before the computation finished, never a Python-level event. *)
Definition comp (A : Type) : Type := nat -> option (outcome A).

Definition ret {A} (a : A) : comp A := fun _ => Some (Ok a).
Definition raise {A} (e : exn) : comp A := fun _ => Some (Raise e).
Definition lift {A} (c : outcome A) : comp A := fun _ => Some c.

Definition bind {A B} (c : comp A) (k : A -> comp B) : comp B :=
  fun fuel =>
    match c fuel with
    | Some (Ok a) => k a fuel
    | Some (Raise e) => Some (Raise e)
    | None => None
    end.

(** [try: c except (e1, e2, ...): h] *)
Definition try_except {A} (c : outcome A) (caught : exn -> bool)
    (h : outcome A) : outcome A :=
  match c with
  | Ok a => Ok a
  | Raise e => if caught e then h else Raise e
  end.

(** [while cond: body], one unit of fuel per test of the condition. *)
Fixpoint while {S : Type} (cond : S -> bool) (body : S -> comp S) (s : S)
    (fuel : nat) : option (outcome S) :=
  match fuel with
  | O => None
  | Datatypes.S fuel' =>
      if cond s then
        match body s fuel' with
        | Some (Ok s') => while cond body s' fuel'
        | Some (Raise e) => Some (Raise e)
        | None => None
        end
      else Some (Ok s)
  end.

(** [c] yields the outcome [r]: with enough fuel, and from then on. *)
Definition yields {A} (c : comp A) (r : outcome A) : Prop :=
  exists fuel0, forall fuel, (fuel0 <= fuel)%nat -> c fuel = Some r.

Definition returns {A} (c : comp A) (v : A) : Prop := yields c (Ok v).
Definition raises {A} (c : comp A) (e : exn) : Prop := yields c (Raise e).
Definition terminates {A} (c : comp A) : Prop := exists r, yields c r.

(** More fuel never changes a result already obtained. *)
Definition mono {A} (c : comp A) : Prop :=
  forall f f' r, (f <= f')%nat -> c f = Some r -> c f' = Some r.

(** [range(a, b)] *)
Definition range (a b : Z) : list Z :=
  map (fun k => a + Z.of_nat k) (seq 0 (Z.to_nat (b - a))).

(** ** binary64 *)

Definition float : Type := spec_float.
Definition prec : Z := 53.
Definition emax : Z := 1024.

(** [float(n)] for an integer: the nearest binary64, ties to even;
    "OverflowError: int too large to convert to float" past the range. *)
Definition float_of_int (n : Z) : outcome float :=
  match binary_normalize prec emax n 0 false with
  | S754_infinity _ => Raise OverflowError
  | x => Ok x
  end.

(** [n / 2] on integers: the exact quotient rounded once;
    "OverflowError: integer division result too large for a float". *)
Definition truediv_2 (n : Z) : outcome float :=
  match binary_normalize prec emax n (-1) false with
  | S754_infinity _ => Raise OverflowError
  | x => Ok x
  end.

(** [math.sqrt(n)]: the argument is converted first, a negative one is a
    "math domain error". *)
Definition math_sqrt (n : Z) : outcome float :=
  obind (float_of_int n) (fun x =>
    match x with
    | S754_finite true _ _ => Raise ValueError
    | _ => Ok (SFsqrt prec emax x)
    end).

(** [int(x)] for a float: truncation towards zero. *)
Definition int_of_float (x : float) : outcome Z :=
  match x with
  | S754_zero _ => Ok 0
  | S754_finite s m e =>
      Ok (cond_Zopp s (if 0 <=? e then Z.pos m * 2 ^ e
                       else Z.pos m / 2 ^ (- e)))
  | S754_infinity _ => Raise OverflowError
  | S754_nan => Raise ValueError
  end.

(** [math.isqrt(n)] *)
Definition math_isqrt (n : Z) : outcome Z :=
  if n <? 0 then Raise ValueError else Ok (Z.sqrt n).

(** ** Text

    Text is modelled over the ASCII repertoire, which holds every string
    the two programs build from an integer and every word made of the
    letters A to Z; a character is known by its code, [ord]. [int] has the
    interpreter's default limit on the digits of a text it reads (4300, in
    the bases that are not powers of two). [str] is written without that
    limit: the two programs apply it to numbers of twelve digits at most. *)

Definition ord (c : ascii) : Z := Z.of_N (N_of_ascii c).
Definition chr (n : Z) : ascii := ascii_of_N (Z.to_N n).

Definition chars (s : string) : list ascii := list_ascii_of_string s.

Definition is_digit (c : ascii) : bool := (48 <=? ord c) && (ord c <=? 57).
Definition is_upper (c : ascii) : bool := (65 <=? ord c) && (ord c <=? 90).
Definition is_lower (c : ascii) : bool := (97 <=? ord c) && (ord c <=? 122).
Definition is_alpha (c : ascii) : bool := is_upper c || is_lower c.
Definition is_space (c : ascii) : bool :=
  ((9 <=? ord c) && (ord c <=? 13)) || ((28 <=? ord c) && (ord c <=? 32)).

Definition upper_char (c : ascii) : ascii :=
  if is_lower c then chr (ord c - 32) else c.

(** [f] applied to every character. *)
Fixpoint smap (f : ascii -> ascii) (s : string) : string :=
  match s with
  | EmptyString => EmptyString
  | String c r => String (f c) (smap f r)
  end.

(** [s.upper()] *)
Definition upper (s : string) : string := smap upper_char s.

(** [s.isdigit()]: at least one character, all of them digits. *)
Definition isdigit (s : string) : bool :=
  match s with
  | EmptyString => false
  | _ => forallb is_digit (chars s)
  end.

Fixpoint lstrip (s : string) : string :=
  match s with
  | EmptyString => EmptyString
  | String c r => if is_space c then lstrip r else s
  end.

Fixpoint rstrip (s : string) : string :=
  match s with
  | EmptyString => EmptyString
  | String c r =>
      match rstrip r with
      | EmptyString => if is_space c then EmptyString else String c EmptyString
      | r' => String c r'
      end
  end.

(** [s.strip()] *)
Definition strip (s : string) : string := rstrip (lstrip s).

Definition len (s : string) : Z := Z.of_nat (String.length s).

(** [s[a:]] and [s[a:b]] for literal bounds [0 <= a <= b]. *)
Fixpoint drop (a : nat) (s : string) : string :=
  match a, s with
  | O, _ => s
  | S a', EmptyString => EmptyString
  | S a', String _ r => drop a' r
  end.

Fixpoint take (b : nat) (s : string) : string :=
  match b, s with
  | O, _ => EmptyString
  | S b', EmptyString => EmptyString
  | S b', String c r => String c (take b' r)
  end.

Definition slice (a b : nat) (s : string) : string := take (b - a) (drop a s).

Fixpoint zeros (k : nat) : string :=
  match k with
  | O => EmptyString
  | S k' => String "0" (zeros k')
  end.

(** [s.zfill(width)]: zeros go after a leading sign. *)
Definition zfill (width : nat) (s : string) : string :=
  let k := (width - String.length s)%nat in
  match s with
  | String c r =>
      if Ascii.eqb c "+" || Ascii.eqb c "-" then String c (zeros k ++ r)
      else zeros k ++ s
  | EmptyString => zeros k
  end.

(** [sep.join(l)] *)
Fixpoint join (sep : string) (l : list string) : string :=
  match l with
  | [] => EmptyString
  | [x] => x
  | x :: r => x ++ sep ++ join sep r
  end.

(** [s.split(sep)] for a one-character separator; [cur] is the piece being
    read, kept in reverse. *)
Fixpoint split_from (sep : ascii) (s : string) (cur : string) : list string :=
  match s with
  | EmptyString => [cur]
  | String c r =>
      if Ascii.eqb c sep then cur :: split_from sep r EmptyString
      else split_from sep r (cur ++ String c EmptyString)
  end.

Definition split (sep : ascii) (s : string) : list string :=
  split_from sep s EmptyString.

(** The digit of value [d] as [hex], [oct], [bin] and [str] print it. *)
Definition digit_char (d : Z) : ascii :=
  if d <? 10 then chr (48 + d) else chr (87 + d).

(** The value of a digit as [int] reads it, in either case. *)
Definition digit_val (c : ascii) : option Z :=
  if is_digit c then Some (ord c - 48)
  else if is_lower c then Some (ord c - 87)
  else if is_upper c then Some (ord c - 55)
  else None.

(** The digits of [n >= 0] in base [b], most significant first. *)
Fixpoint to_digits (fuel : nat) (b n : Z) (acc : string) : string :=
  match fuel with
  | O => acc
  | S fuel' =>
      let acc' := String (digit_char (n mod b)) acc in
      if n / b =? 0 then acc' else to_digits fuel' b (n / b) acc'
  end.

Definition digits (b n : Z) : string :=
  to_digits (S (Z.to_nat (Z.log2 n))) b n EmptyString.

Definition format_int (b : Z) (prefix : string) (n : Z) : string :=
  (if n <? 0 then "-" else EmptyString) ++ prefix ++ digits b (Z.abs n).

(** [hex(n)], [bin(n)], [oct(n)], [str(n)] *)
Definition hex (n : Z) : string := format_int 16 "0x" n.
Definition bin (n : Z) : string := format_int 2 "0b" n.
Definition oct (n : Z) : string := format_int 8 "0o" n.
Definition str (n : Z) : string := format_int 10 EmptyString n.

(** The digits of [int(text, base)]: single underscores may separate
    digits; [prev_us] tells that the last character read was one. *)
Fixpoint parse_digits_from (b : Z) (s : string) (acc : Z) (prev_us : bool)
    : option Z :=
  match s with
  | EmptyString => if prev_us then None else Some acc
  | String c r =>
      if Ascii.eqb c "_" then
        if prev_us then None else parse_digits_from b r acc true
      else
        match digit_val c with
        | Some v => if v <? b then parse_digits_from b r (acc * b + v) false
                    else None
        | None => None
        end
  end.

Definition parse_digits (b : Z) (s : string) : option Z :=
  match s with
  | EmptyString => None
  | String c _ => if Ascii.eqb c "_" then None else parse_digits_from b s 0 false
  end.

(** The radix prefix [int(text, base)] accepts for bases 16, 8 and 2. *)
Definition radix_prefix (b : Z) (s : string) : bool :=
  match s with
  | String c0 (String c _) =>
      Ascii.eqb c0 "0" &&
      (((b =? 16) && (Ascii.eqb c "x" || Ascii.eqb c "X"))
       || ((b =? 8) && (Ascii.eqb c "o" || Ascii.eqb c "O"))
       || ((b =? 2) && (Ascii.eqb c "b" || Ascii.eqb c "B")))
  | _ => false
  end.

(** An optional sign in front: whether it is a minus, and the rest. *)
Definition split_sign (s : string) : bool * string :=
  match s with
  | String c r =>
      if Ascii.eqb c "+" then (false, r)
      else if Ascii.eqb c "-" then (true, r)
      else (false, s)
  | EmptyString => (false, s)
  end.

(** What follows the radix prefix, when there is one: one underscore is
    skipped. *)
Definition skip_prefix (b : Z) (s : string) : string :=
  if radix_prefix b s then
    match drop 2 s with
    | String c r => if Ascii.eqb c "_" then r else String c r
    | EmptyString => EmptyString
    end
  else s.

(** [sys.get_int_max_str_digits()], as the interpreter starts. *)
Definition max_str_digits : Z := 4300.

(** The bases the limit leaves alone. *)
Definition binary_base (b : Z) : bool :=
  (b =? 2) || (b =? 4) || (b =? 8) || (b =? 16) || (b =? 32).

(** The digits of a text, underscores apart. *)
Fixpoint count_digits (s : string) : Z :=
  match s with
  | EmptyString => 0
  | String c r => if Ascii.eqb c "_" then count_digits r
                  else 1 + count_digits r
  end.

(** [int(text, base)] for [base] in 2..36: surrounding white space, an
    optional sign, an optional radix prefix, then the digits; anything
    else is a ValueError, and so are more than [max_str_digits] digits in
    a base that is not a power of two ("Exceeds the limit (4300 digits)
    for integer string conversion"). *)
Definition int_parse (b : Z) (s : string) : outcome Z :=
  let '(neg, s2) := split_sign (strip s) in
  let body := skip_prefix b s2 in
  match parse_digits b body with
  | Some v =>
      if negb (binary_base b) && (max_str_digits <? count_digits body)
      then Raise ValueError
      else Ok (if neg then - v else v)
  | None => Raise ValueError
  end.

(** [l[i]] on a list: a negative index counts from the end. *)
Definition getitem {A} (l : list A) (i : Z) : outcome A :=
  let j := if i <? 0 then i + Z.of_nat (List.length l) else i in
  if j <? 0 then Raise IndexError
  else
    match nth_error l (Z.to_nat j) with
    | Some a => Ok a
    | None => Raise IndexError
    end.

(** ** Library values left uninterpreted

    What [math], [hashlib], [crcmod] and [base64] compute is not part of
    the programs. These calls never raise on the arguments they get here,
    and nothing below depends on their values: a call stands for its own
    result. *)

(** A number computed by the [math] module or by a float power: a float
    or, for a negative base under a fractional power, a complex. *)
Inductive mathval : Type :=
| Lit (x : float)
| Log10 (n : Z)
| Log (n : Z)
| Sin (x : mathval)
| Cos (x : mathval)
| Tan (x : mathval)
| Radians (x : mathval)
| Degrees (x : mathval)
| Pow (x y : mathval).

(** The text a digest or an encoding of [data] prints as. *)
Inductive digest : Type :=
| Md5 (data : string)
| Sha1 (data : string)
| Sha256 (data : string)
| Crc32 (data : string)
| B64encode (data : string).

(** ** The calendar of the platform

    [datetime.fromtimestamp(t).strftime('%A, %d %B %Y at %H:%M:%S UTC')]
    depends on the platform (its time zone, the range of its clock) and
    may raise. *)
Class Calendar : Type := {
  datetime_strftime : Z -> outcome string
}.

(** *** A platform whose local time is UTC

    Civil date from a day count, proleptic Gregorian calendar; years 1 to
    9999 as [datetime] has them. *)
Definition weekday_names : list string :=
  ["Sunday"; "Monday"; "Tuesday"; "Wednesday"; "Thursday"; "Friday";
   "Saturday"].
Definition month_names : list string :=
  ["January"; "February"; "March"; "April"; "May"; "June"; "July"; "August";
   "September"; "October"; "November"; "December"].

(** Year, month and day of the day [z] days after 1970-01-01. *)
Definition civil_from_days (z : Z) : Z * Z * Z :=
  let z := z + 719468 in
  let era := z / 146097 in
  let doe := z - era * 146097 in
  let yoe := (doe - doe / 1460 + doe / 36524 - doe / 146096) / 365 in
  let doy := doe - (365 * yoe + yoe / 4 - yoe / 100) in
  let mp := (5 * doy + 2) / 153 in
  let d := doy - (153 * mp + 2) / 5 + 1 in
  let m := if mp <? 10 then mp + 3 else mp - 9 in
  let y := yoe + era * 400 + (if m <=? 2 then 1 else 0) in
  (y, m, d).

Definition two_digits (n : Z) : string :=
  String (digit_char (n / 10)) (String (digit_char (n mod 10)) EmptyString).

Definition utc_strftime (t : Z) : outcome string :=
  let days := t / 86400 in
  let secs := t mod 86400 in
  let '(y, m, d) := civil_from_days days in
  if (y <? 1) || (9999 <? y) then Raise ValueError
  else
    Ok (nth (Z.to_nat ((days + 4) mod 7)) weekday_names EmptyString ++ ", " ++
        two_digits d ++ " " ++
        nth (Z.to_nat (m - 1)) month_names EmptyString ++ " " ++
        zfill 4 (str y) ++ " at " ++ two_digits (secs / 3600) ++ ":" ++
        two_digits (secs mod 3600 / 60) ++ ":" ++ two_digits (secs mod 60) ++
        " UTC")%string.

Definition utc_calendar : Calendar := {| datetime_strftime := utc_strftime |}.

End Py.

Export Py.

Declare Scope comp_scope.
Delimit Scope comp_scope with comp.
Notation "x <- c ;; k" := (bind c (fun x => k))
  (at level 61, c at next level, right associativity) : comp_scope.
Notation "x <~ c ;; k" := (obind c (fun x => k))
  (at level 61, c at next level, right associativity) : comp_scope.
Open Scope comp_scope.

(* ===================================================================== *)
(** * truth.py *)
(* ===================================================================== *)

Module Truth.

(** ** factorize *)

(** The loop variables of [factorize]. *)
Record fstate : Type := FState { f_n : Z; f_d : Z; f_factors : list Z }.

(** [while n % d == 0: factors.append(d); n //= d] *)
Definition factorize_inner : fstate -> comp fstate :=
  while (fun s => f_n s mod f_d s =? 0)
        (fun s => ret (FState (f_n s / f_d s) (f_d s) (f_factors s ++ [f_d s]))).

(** [while d * d <= n: <inner loop>; d += 1] *)
Definition factorize_outer : fstate -> comp fstate :=
  while (fun s => f_d s * f_d s <=? f_n s)
        (fun s => s1 <- factorize_inner s ;;
                  ret (FState (f_n s1) (f_d s1 + 1) (f_factors s1))).

Definition factorize (n : Z) : comp (list Z) :=
  if n <? 2 then ret [n]
  else
    s <- factorize_outer (FState n 2 []) ;;
    ret (if 1 <? f_n s then f_factors s ++ [f_n s] else f_factors s).

(** ** is_prime *)

(** [for i in range(...): if n % i == 0: return False] then [return True] *)
Fixpoint is_prime_loop (n : Z) (l : list Z) : bool :=
  match l with
  | [] => true
  | i :: l' => if n mod i =? 0 then false else is_prime_loop n l'
  end.

Definition is_prime (n : Z) : outcome bool :=
  if n <? 2 then Ok false
  else
    x <~ math_sqrt n ;;
    r <~ int_of_float x ;;
    Ok (is_prime_loop n (range 2 (r + 1))).

(** ** find_previous_primes *)

Record pstate : Type := PState { p_primes : list Z; p_candidate : Z }.

(** [while len(primes) < count and candidate > 1: ...] *)
Definition previous_primes_loop (count : Z) : pstate -> comp pstate :=
  while (fun s => (Z.of_nat (List.length (p_primes s)) <? count)
                  && (1 <? p_candidate s))
        (fun s => b <- lift (is_prime (p_candidate s)) ;;
                  ret (PState (if b then p_primes s ++ [p_candidate s]
                               else p_primes s)
                              (p_candidate s - 1))).

Definition find_previous_primes (n count : Z) : comp (list Z) :=
  s <- previous_primes_loop count (PState [] (n - 1)) ;;
  ret (p_primes s).

(** ** is_fibonacci *)

(** [a or b] on booleans: [b] is evaluated only when [a] is false. *)
Definition is_fibonacci (n : Z) : outcome bool :=
  if n <? 0 then Ok false
  else
    let x := 5 * n * n in
    r1 <~ math_isqrt (x + 4) ;;
    if r1 ^ 2 =? x + 4 then Ok true
    else
      r2 <~ math_isqrt (x - 4) ;;
      Ok (r2 ^ 2 =? x - 4).

(** ** number_to_english *)

Definition units : list string :=
  [EmptyString; "one"; "two"; "three"; "four"; "five"; "six"; "seven"; "eight"; "nine"].
Definition teens : list string :=
  ["ten"; "eleven"; "twelve"; "thirteen"; "fourteen"; "fifteen"; "sixteen";
   "seventeen"; "eighteen"; "nineteen"].
Definition tens : list string :=
  [EmptyString; EmptyString; "twenty"; "thirty"; "forty"; "fifty"; "sixty"; "seventy"; "eighty";
   "ninety"].
Definition thousands : list string := [EmptyString; "thousand"; "million"; "billion"].

Fixpoint convert_hundreds (num : Z) (fuel : nat) {struct fuel}
    : option (outcome string) :=
  match fuel with
  | O => None
  | S fuel' =>
      if num =? 0 then Some (Ok EmptyString)
      else if num <? 10 then Some (getitem units num)
      else if num <? 20 then Some (getitem teens (num - 10))
      else if num <? 100 then
        Some (t <~ getitem tens (num / 10) ;;
              if negb (num mod 10 =? 0)
              then u <~ getitem units (num mod 10) ;; Ok (t ++ (" " ++ u))%string
              else Ok (t ++ EmptyString)%string)
      else
        match getitem units (num / 100) with
        | Raise e => Some (Raise e)
        | Ok u =>
            if negb (num mod 100 =? 0) then
              match convert_hundreds (num mod 100) fuel' with
              | Some (Ok r) => Some (Ok (u ++ " hundred" ++ (" " ++ r))%string)
              | other => other
              end
            else Some (Ok (u ++ " hundred" ++ EmptyString)%string)
        end
  end.

(** The loop variables of [number_to_english]. *)
Record estate : Type :=
  EState { e_n : Z; e_parts : list string; e_chunk_count : Z }.

Definition english_body (s : estate) : comp estate :=
  let chunk := e_n s mod 1000 in
  parts <- (if negb (chunk =? 0) then
              part <- convert_hundreds chunk ;;
              part <- (if 0 <? e_chunk_count s
                       then th <- lift (getitem thousands (e_chunk_count s)) ;;
                            ret (part ++ (" " ++ th))%string
                       else ret part) ;;
              ret (e_parts s ++ [part])
            else ret (e_parts s)) ;;
  ret (EState (e_n s / 1000) parts (e_chunk_count s + 1)).

Fixpoint number_to_english (n : Z) (fuel : nat) {struct fuel}
    : option (outcome string) :=
  match fuel with
  | O => None
  | S fuel' =>
      if n =? 0 then Some (Ok "zero")
      else if n <? 0 then
        match number_to_english (- n) fuel' with
        | Some (Ok w) => Some (Ok ("negative " ++ w)%string)
        | other => other
        end
      else
        (s <- while (fun s => 0 <? e_n s) english_body (EState n [] 0) ;;
         ret (join " " (rev (e_parts s)))) fuel'
  end.

(** ** The reinterpretations *)

Definition crc32_hash (data : string) : digest := Crc32 data.

Definition invalid_timestamp : string := "Invalid or out-of-range timestamp".
Definition invalid_ipv4 : string := "Invalid IPv4 address".

Definition unix_to_datetime {cal : Calendar} (timestamp : Z) : outcome string :=
  if (0 <=? timestamp) && (timestamp <=? 2000000000) then
    try_except (datetime_strftime timestamp)
      (fun e => match e with ValueError | OSError => true | _ => false end)
      (Ok invalid_timestamp)
  else Ok invalid_timestamp.

Definition number_to_ipv4 (n : Z) : string :=
  if (0 <=? n) && (n <=? 4294967295) then
    str (Z.land (Z.shiftr n 24) 255) ++ "." ++
    str (Z.land (Z.shiftr n 16) 255) ++ "." ++
    str (Z.land (Z.shiftr n 8) 255) ++ "." ++
    str (Z.land n 255)
  else invalid_ipv4.

Definition hex_to_rgb (hex_str : string) : outcome (Z * Z * Z) :=
  let hex_str := zfill 6 hex_str in
  try_except
    (r <~ int_parse 16 (slice 0 2 hex_str) ;;
     g <~ int_parse 16 (slice 2 4 hex_str) ;;
     b <~ int_parse 16 (slice 4 6 hex_str) ;;
     Ok (r, g, b))
    (fun e => match e with ValueError => true | _ => false end)
    (Ok (0, 0, 0)).

(** ** analyze_number *)

(** The [results] dictionary: one field per key, in the order the keys are
    assigned. *)
Record results : Type := Results {
  decimal : Z;
  hexadecimal : string;
  binary : string;
  octal : string;
  english_words : string;
  parity : string;
  factors : list Z;
  prime_status : string;
  divisible_by_8 : list Z;
  multiplied_by_2 : Z;
  divided_by_2 : float;
  previous_primes : list Z;
  digit_sum : Z;
  digit_count : Z;
  log10 : mathval;
  natural_log : mathval;
  fibonacci : bool;
  next_number : Z;
  previous_number : Z;
  square : Z;
  cube : Z;
  square_root : float;
  cube_root : mathval;
  sin_deg : mathval;
  cos_deg : mathval;
  tan_deg : mathval;
  sin_rad : mathval;
  cos_rad : mathval;
  tan_rad : mathval;
  deg_to_rad : mathval;
  rad_to_deg : mathval;
  md5 : digest;
  crc32 : digest;
  sha256 : digest;
  sha1 : digest;
  base64 : digest;
  c_hex : string;
  delphi_hex : string;
  unix_time : string;
  ipv4 : string;
  color_hex : string;
  rgb : Z * Z * Z
}.

(** [float('inf')] and the constant [1/3]. *)
Definition float_inf : float := S754_infinity false.
Definition one_third : float :=
  SFdiv prec emax (binary_normalize prec emax 1 0 false)
                  (binary_normalize prec emax 3 0 false).

(** [sum(int(d) for d in text)] *)
Fixpoint sum_digits (l : list ascii) (acc : Z) : outcome Z :=
  match l with
  | [] => Ok acc
  | d :: l' => v <~ int_parse 10 (String d EmptyString) ;; sum_digits l' (acc + v)
  end.

Definition analyze_number {cal : Calendar} (number : Z) : comp results :=
  let hexadecimal := upper (drop 2 (hex number)) in
  let binary := drop 2 (bin number) in
  let octal := drop 2 (oct number) in
  english_words <- number_to_english number ;;
  let parity := if negb (number mod 2 =? 0) then "Odd" else "Even" in
  factors <- factorize number ;;
  prime <- lift (is_prime number) ;;
  let prime_status := if prime then "Prime" else "Composite" in
  let divisible_by_8 := map (fun i => number * i) (range 2 10) in
  let multiplied_by_2 := number * 2 in
  divided_by_2 <- lift (truediv_2 number) ;;
  previous_primes <- find_previous_primes number 8 ;;
  digit_sum <- lift (sum_digits (chars (str number)) 0) ;;
  let digit_count := len (str number) in
  let log10 := if 0 <? number then Log10 number else Lit float_inf in
  let natural_log := if 0 <? number then Log number else Lit float_inf in
  fibonacci <- lift (is_fibonacci number) ;;
  let next_number := number + 1 in
  let previous_number := number - 1 in
  let square := number ^ 2 in
  let cube := number ^ 3 in
  square_root <- lift (math_sqrt number) ;;
  cube_root <- lift (x <~ float_of_int number ;; Ok (Pow (Lit x) (Lit one_third))) ;;
  sin_deg <- lift (x <~ float_of_int number ;; Ok (Sin (Radians (Lit x)))) ;;
  cos_deg <- lift (x <~ float_of_int number ;; Ok (Cos (Radians (Lit x)))) ;;
  tan_deg <- lift (x <~ float_of_int number ;; Ok (Tan (Radians (Lit x)))) ;;
  sin_rad <- lift (x <~ float_of_int number ;; Ok (Sin (Lit x))) ;;
  cos_rad <- lift (x <~ float_of_int number ;; Ok (Cos (Lit x))) ;;
  tan_rad <- lift (x <~ float_of_int number ;; Ok (Tan (Lit x))) ;;
  deg_to_rad <- lift (x <~ float_of_int number ;; Ok (Radians (Lit x))) ;;
  rad_to_deg <- lift (x <~ float_of_int number ;; Ok (Degrees (Lit x))) ;;
  let md5 := Md5 (str number) in
  let crc32 := crc32_hash (str number) in
  let sha256 := Sha256 (str number) in
  let sha1 := Sha1 (str number) in
  let base64 := B64encode (str number) in
  let c_hex := ("0x" ++ hexadecimal)%string in
  let delphi_hex := ("$" ++ hexadecimal)%string in
  unix_time <- lift (unix_to_datetime number) ;;
  let ipv4 := number_to_ipv4 number in
  let color_hex := ("#" ++ zfill 6 hexadecimal)%string in
  rgb <- lift (hex_to_rgb hexadecimal) ;;
  ret (Results number hexadecimal binary octal english_words parity factors
         prime_status divisible_by_8 multiplied_by_2 divided_by_2
         previous_primes digit_sum digit_count log10 natural_log fibonacci
         next_number previous_number square cube square_root cube_root
         sin_deg cos_deg tan_deg sin_rad cos_rad tan_rad deg_to_rad
         rad_to_deg md5 crc32 sha256 sha1 base64 c_hex delphi_hex unix_time
         ipv4 color_hex rgb).

End Truth.

Import Truth.


(* ===================================================================== *)
(** * true.py *)
(* ===================================================================== *)

Module Codec.

Definition encoder_mot (mot : string) : string :=
  let mot := strip (upper mot) in
  let resultat :=
    map (fun lettre => str (ord lettre - ord "A" + 1))
        (filter is_alpha (chars mot)) in
  join "." resultat.

(** The body of the decoding loop, for one piece of the sequence. *)
Definition decoder_step (mot_decode : string) (nombre : string)
    : outcome string :=
  if isdigit nombre then
    numero <~ int_parse 10 nombre ;;
    if (1 <=? numero) && (numero <=? 26)
    then Ok (mot_decode ++ String (chr (numero + ord "A" - 1)) EmptyString)%string
    else Ok mot_decode
  else Ok mot_decode.

Fixpoint decoder_loop (nombres : list string) (mot_decode : string)
    : outcome string :=
  match nombres with
  | [] => Ok mot_decode
  | nombre :: rest =>
      m <~ decoder_step mot_decode nombre ;; decoder_loop rest m
  end.

Definition decoder_sequence (sequence : string) : outcome string :=
  decoder_loop (split "." sequence) EmptyString.

End Codec.

Import Codec.


(* ===================================================================== *)
(** * Vocabulary of the statements *)
(* ===================================================================== *)

(** The product of the elements of a list. *)
Definition product (l : list Z) : Z := fold_right Z.mul 1 l.

Definition perfect_square (m : Z) : Prop := exists k, k * k = m.

(** No integer of [[2, floor (sqrt n)]] divides [n]. *)
Definition no_divisor_upto_sqrt (n : Z) : Prop :=
  forall d, 2 <= d <= Z.sqrt n -> ~ (d | n).

Definition prime_b (n : Z) : bool := if prime_dec n then true else false.

(** The primes below [n], in increasing order. *)
Definition primes_below (n : Z) : list Z := filter prime_b (range 2 n).

(** [s] is the dotted quad of the four big-endian bytes of [n]. *)
Definition dotted_quad (n : Z) (s : string) : Prop :=
  exists a b c d,
    (0 <= a <= 255 /\ 0 <= b <= 255 /\ 0 <= c <= 255 /\ 0 <= d <= 255) /\
    n = a * 2 ^ 24 + b * 2 ^ 16 + c * 2 ^ 8 + d /\
    s = (str a ++ "." ++ str b ++ "." ++ str c ++ "." ++ str d)%string.

(** Every character of [s] passes the test [P]. *)
Definition all_chars (P : ascii -> bool) (s : string) : bool :=
  forallb P (chars s).

(** A word made of the letters A to Z only. *)
Definition uppercase_word (w : string) : Prop := all_chars is_upper w = true.

(** A digit of base [b], in either case. *)
Definition plain (b : Z) (c : ascii) : bool :=
  match digit_val c with
  | Some v => v <? b
  | None => false
  end.

(** The value of a string of digits read in base [b] after [acc]. *)
Fixpoint sval (b : Z) (s : string) (acc : Z) : Z :=
  match s with
  | EmptyString => acc
  | String c r =>
      sval b r (acc * b + match digit_val c with Some v => v | None => 0 end)
  end.

(** The letters a list of alphabet indices stands for. *)
Definition letters (ks : list Z) : string :=
  string_of_list_ascii (map (fun k => chr (k + 64)) ks).

Definition valid_index (k : Z) : bool := (1 <=? k) && (k <=? 26).

(** The candidates from [c] down to 2. *)
Definition descending (c : Z) : list Z := rev (range 2 (c + 1)).

(** [int(math.sqrt(n))] serves the trial division of [n]: it evaluates to
    some [r], not below the integer square root and below [n]. *)
Definition sqrt_adequate (n : Z) : Prop :=
  exists r, obind (math_sqrt n) int_of_float = Ok r /\ Z.sqrt n <= r < n.

(** Below this bound [int(math.sqrt(n))] is the integer square root. *)
Definition sqrt_exact_bound : Z := 2 ^ 52.


(** Whether rounding to nearest moves a truncated mantissa up, when the
    discarded part is not a tie. *)
Definition round_up (l : location) : bool :=
  match l with loc_Inexact Gt => true | _ => false end.

(** The invariant of the two loops of [factorize], for the input [n0]. *)
Definition factorize_inv (n0 : Z) (s : fstate) : Prop :=
  1 <= f_n s /\ 2 <= f_d s /\
  product (f_factors s) * f_n s = n0 /\
  Forall prime (f_factors s) /\
  StronglySorted Z.le (f_factors s) /\
  Forall (fun p => p <= f_d s) (f_factors s) /\
  (forall q, 2 <= q < f_d s -> ~ (q | f_n s)).

(* ===================================================================== *)
(** * Tactics *)
(* ===================================================================== *)

(** Facts about one character are read off its code. *)
Ltac by_code :=
  unfold plain, digit_val, is_space, is_digit, is_lower, is_upper, is_alpha in *;
  repeat match goal with
         | |- context [?a <=? ?b] => destruct (Z.leb_spec a b)
         | H : context [?a <=? ?b] |- _ => destruct (Z.leb_spec a b)
         | |- context [?a <? ?b] => destruct (Z.ltb_spec a b)
         | H : context [?a <? ?b] |- _ => destruct (Z.ltb_spec a b)
         end;
  cbn [andb orb negb] in *; try discriminate; try reflexivity; try lia.

(* ===================================================================== *)
(** * Computations on fuel *)
(* ===================================================================== *)

Section Fuel.

Context {A B : Type}.

Lemma yields_unique (c : comp A) r1 r2 : yields c r1 -> yields c r2 -> r1 = r2.
Proof.
  intros [f1 H1] [f2 H2].
  specialize (H1 (Nat.max f1 f2) (Nat.le_max_l _ _)).
  specialize (H2 (Nat.max f1 f2) (Nat.le_max_r _ _)).
  congruence.
Qed.

Lemma returns_ret (a : A) : returns (ret a) a.
Proof. exists 0%nat. reflexivity. Qed.

Lemma yields_lift (c : outcome A) : yields (lift c) c.
Proof. exists 0%nat. reflexivity. Qed.

Lemma yields_bind (c : comp A) (k : A -> comp B) a r :
  returns c a -> yields (k a) r -> yields (bind c k) r.
Proof.
  intros [f1 H1] [f2 H2]. exists (Nat.max f1 f2). intros f Hf.
  unfold bind. rewrite H1 by lia. apply H2. lia.
Qed.

Lemma raises_bind (c : comp A) (k : A -> comp B) e :
  raises c e -> raises (bind c k) e.
Proof.
  intros [f1 H1]. exists f1. intros f Hf. unfold bind. now rewrite H1.
Qed.

Lemma mono_ret (a : A) : mono (ret a).
Proof. intros f f' r _ H. exact H. Qed.

Lemma mono_lift (c : outcome A) : mono (lift c).
Proof. intros f f' r _ H. exact H. Qed.

Lemma mono_bind (c : comp A) (k : A -> comp B) :
  mono c -> (forall a, mono (k a)) -> mono (bind c k).
Proof.
  intros Hc Hk f f' r Hf. unfold bind.
  destruct (c f) as [[a|e]|] eqn:E; [| |discriminate].
  - rewrite (Hc _ _ _ Hf E). apply Hk. exact Hf.
  - now rewrite (Hc _ _ _ Hf E).
Qed.

Lemma mono_yields (c : comp A) f r : mono c -> c f = Some r -> yields c r.
Proof. intros Hc H. exists f. intros f' Hf. exact (Hc _ _ _ Hf H). Qed.

End Fuel.

Section While.

Context {S : Type}.
Variables (cond : S -> bool) (body : S -> comp S).

Lemma mono_while : (forall s, mono (body s)) -> forall s, mono (while cond body s).
Proof.
  intros Hb s f. revert s.
  induction f as [|f IH]; intros s f' r Hf H; [discriminate|].
  destruct f' as [|f']; [lia|]. simpl in *.
  destruct (cond s); [|exact H].
  destruct (body s f) as [[s'|e]|] eqn:E; [| |discriminate].
  - rewrite (Hb s f f' _ ltac:(lia) E). apply IH; [lia|exact H].
  - now rewrite (Hb s f f' _ ltac:(lia) E).
Qed.

Lemma while_exit s : cond s = false -> returns (while cond body s) s.
Proof.
  intros H. exists 1%nat. intros [|f] Hf; [lia|]. simpl. now rewrite H.
Qed.

Lemma while_step s s' r :
  cond s = true -> returns (body s) s' -> yields (while cond body s') r ->
  yields (while cond body s) r.
Proof.
  intros Hc [f1 H1] [f2 H2]. exists (Datatypes.S (Nat.max f1 f2)).
  intros [|f] Hf; [lia|]. simpl. rewrite Hc, H1 by lia. apply H2. lia.
Qed.

Lemma while_raise s e :
  cond s = true -> raises (body s) e -> raises (while cond body s) e.
Proof.
  intros Hc [f1 H1]. exists (Datatypes.S f1).
  intros [|f] Hf; [lia|]. simpl. now rewrite Hc, H1 by lia.
Qed.

(** The loop rule: an invariant [I] kept by the body and a measure [m] that
    the body decreases give a final state where the condition fails. *)
Lemma while_returns (I : S -> Prop) (m : S -> nat) :
  (forall s, I s -> cond s = true ->
     exists s', returns (body s) s' /\ I s' /\ (m s' < m s)%nat) ->
  forall s, I s ->
  exists s', returns (while cond body s) s' /\ I s' /\ cond s' = false.
Proof.
  intros Hbody s. remember (m s) as k eqn:Hk. revert s Hk.
  induction k as [k IH] using lt_wf_ind. intros s Hk Hs.
  destruct (cond s) eqn:Hc.
  - destruct (Hbody s Hs Hc) as (s' & Hret & Hs' & Hlt).
    destruct (IH (m s') ltac:(lia) s' eq_refl Hs') as (s'' & Hw & Hs'' & Hc'').
    exists s''. split; [|auto]. eapply while_step; eauto.
  - exists s. split; [|auto]. now apply while_exit.
Qed.

(** The same when the body may raise an exception of the kind [E]: the
    loop then ends in a state where the condition fails, or by raising. *)
Lemma while_terminates (I : S -> Prop) (E : exn -> Prop) (m : S -> nat) :
  (forall s, I s -> cond s = true ->
     (exists s', returns (body s) s' /\ I s' /\ (m s' < m s)%nat) \/
     (exists e, raises (body s) e /\ E e)) ->
  forall s, I s ->
  (exists s', returns (while cond body s) s' /\ I s' /\ cond s' = false) \/
  (exists e, raises (while cond body s) e /\ E e).
Proof.
  intros Hbody s. remember (m s) as k eqn:Hk. revert s Hk.
  induction k as [k IH] using lt_wf_ind. intros s Hk Hs.
  destruct (cond s) eqn:Hc.
  - destruct (Hbody s Hs Hc) as [(s' & Hret & Hs' & Hlt)|(e & He & HE)].
    + destruct (IH (m s') ltac:(lia) s' eq_refl Hs')
        as [(s'' & Hw & Hs'' & Hc'')|(e & He & HE)].
      * left. exists s''. split; [|auto]. eapply while_step; eauto.
      * right. exists e. split; [|assumption]. eapply while_step; eauto.
    + right. exists e. split; [|assumption]. now apply while_raise.
  - left. exists s. split; [|auto]. now apply while_exit.
Qed.

End While.


(* ===================================================================== *)
(** * binary64: [int(math.sqrt(n))] below [2^52] *)
(* ===================================================================== *)

Section FloatSqrt.

Lemma digits2_pos_size p : digits2_pos p = Pos.size p.
Proof. induction p; simpl; congruence. Qed.

Lemma digits2_pos_bounds p :
  2 ^ (Z.pos (digits2_pos p) - 1) <= Z.pos p < 2 ^ Z.pos (digits2_pos p).
Proof.
  rewrite digits2_pos_size. split.
  - pose proof (Pos.size_le p) as H.
    assert (H1 : (Z.pos (2 ^ Pos.size p) <= Z.pos p~0)) by exact H.
    rewrite Pos2Z.inj_pow in H1.
    replace (Z.pos (Pos.size p)) with (Z.pos (Pos.size p) - 1 + 1) in H1 by lia.
    rewrite Z.pow_add_r in H1 by lia. lia.
  - pose proof (Pos.size_gt p) as H.
    assert (H1 : (Z.pos p < Z.pos (2 ^ Pos.size p))) by exact H.
    rewrite Pos2Z.inj_pow in H1. exact H1.
Qed.

Lemma Zdigits2_unique m d :
  0 < d -> 2 ^ (d - 1) <= m < 2 ^ d -> Zdigits2 m = d.
Proof.
  intros Hd [Hlo Hhi].
  assert (0 < m) by (pose proof (Z.pow_pos_nonneg 2 (d - 1)); lia).
  destruct m as [|p|p]; try lia. simpl.
  pose proof (digits2_pos_bounds p) as [Hlo' Hhi'].
  set (d' := Z.pos (digits2_pos p)) in *.
  destruct (Z.lt_trichotomy d' d) as [Hlt|[Heq|Hgt]]; [|exact Heq|].
  - assert (2 ^ d' <= 2 ^ (d - 1)) by (apply Z.pow_le_mono_r; lia). lia.
  - assert (2 ^ d <= 2 ^ (d' - 1)) by (apply Z.pow_le_mono_r; lia). lia.
Qed.

Lemma iter_xO_pow p k : Z.pos (Pos.iter xO p k) = Z.pos p * 2 ^ Z.pos k.
Proof.
  revert p. induction k using Pos.peano_ind; intros p.
  - simpl. lia.
  - rewrite Pos.iter_succ. rewrite Pos2Z.inj_xO, IHk.
    rewrite Pos2Z.inj_succ, Z.pow_succ_r by lia. ring.
Qed.

(** Rounding a mantissa that already has 53 bits. *)
Lemma binary_round_aux_53 m e l :
  Zdigits2 (Z.pos m) = 53 -> -1074 <= e <= 971 ->
  l <> loc_Inexact Eq ->
  (round_up l = true -> Zdigits2 (Z.pos (m + 1)) = 53) ->
  binary_round_aux prec emax false (Z.pos m) e l =
  S754_finite false (if round_up l then (m + 1)%positive else m) e.
Proof.
  intros Hd He Hl Hup.
  assert (Hf : fexp prec emax (53 + e) - e = 0)
    by (unfold fexp, SpecFloat.emin, prec, emax; lia).
  assert (Hb : (e <=? emax - prec) = true)
    by (apply Z.leb_le; unfold emax, prec; lia).
  unfold binary_round_aux, shr_fexp. rewrite Hd, Hf.
  cbn [shr].
  destruct l as [|[| |]];
    cbn [shr_record_of_loc shr_m loc_of_shr_record round_nearest_even round_up];
    try congruence.
  - rewrite Hd, Hf. cbn [shr shr_record_of_loc shr_m]. rewrite Hb. reflexivity.
  - rewrite Hd, Hf. cbn [shr shr_record_of_loc shr_m]. rewrite Hb. reflexivity.
  - replace (Z.pos m + 1) with (Z.pos (m + 1)) by lia.
    rewrite (Hup eq_refl), Hf. cbn [shr shr_record_of_loc shr_m]. rewrite Hb.
    reflexivity.
Qed.

Lemma float_mantissa_digits p q :
  Z.pos (digits2_pos p) + Z.pos q = 53 ->
  Zdigits2 (Z.pos (Pos.iter xO p q)) = 53.
Proof.
  intros Hq. set (d := Z.pos (digits2_pos p)) in *.
  apply Zdigits2_unique; [lia|]. rewrite iter_xO_pow.
  pose proof (digits2_pos_bounds p) as [Hlo Hhi]. fold d in Hlo, Hhi.
  assert (Hd0 : 0 < d) by (unfold d; lia).
  assert (E1 : 2 ^ (53 - 1) = 2 ^ (d - 1) * 2 ^ Z.pos q)
    by (rewrite <- Z.pow_add_r by lia; f_equal; lia).
  assert (E2 : 2 ^ 53 = 2 ^ d * 2 ^ Z.pos q)
    by (rewrite <- Z.pow_add_r by lia; f_equal; lia).
  rewrite E1, E2.
  assert (0 < 2 ^ Z.pos q) by (apply Z.pow_pos_nonneg; lia).
  split; [apply Z.mul_le_mono_nonneg_r | apply Zmult_lt_compat_r]; lia.
Qed.

(** An integer below [2^52] scaled by a small power of two is a binary64:
    the mantissa is the integer shifted to 53 bits. *)
Lemma binary_normalize_exact p e :
  let d := Z.pos (digits2_pos p) in
  d <= 52 -> -1021 <= e <= 0 ->
  binary_normalize prec emax (Z.pos p) e false =
  S754_finite false (Pos.iter xO p (Z.to_pos (53 - d))) (e + d - 53).
Proof.
  intros d Hd He.
  assert (Hd0 : 0 < d) by (unfold d; lia).
  unfold binary_normalize, binary_round.
  assert (Hf : fexp prec emax (Z.pos (digits2_pos p) + e) = e + d - 53)
    by (unfold fexp, SpecFloat.emin, prec, emax; fold d; lia).
  rewrite Hf. unfold shl_align.
  destruct (e + d - 53 - e) as [|q|q] eqn:Hq; try lia.
  assert (Hq' : Z.to_pos (53 - d) = q) by lia. rewrite Hq'.
  assert (Hdig : Zdigits2 (Z.pos (Pos.iter xO p q)) = 53)
    by (apply float_mantissa_digits; fold d; lia).
  rewrite (@binary_round_aux_53 _ (e + d - 53) loc_Exact Hdig);
    [reflexivity | lia | congruence | discriminate].
Qed.

(** [float(n)] is exact below [2^52]. *)
Lemma float_of_int_exact p :
  let d := Z.pos (digits2_pos p) in
  d <= 52 ->
  float_of_int (Z.pos p) =
  Ok (S754_finite false (Pos.iter xO p (Z.to_pos (53 - d))) (d - 53)).
Proof.
  intros d Hd. unfold float_of_int.
  rewrite binary_normalize_exact by (fold d; lia). reflexivity.
Qed.

Lemma digits2_pos_small p : Z.pos p < 2 ^ 52 -> Z.pos (digits2_pos p) <= 52.
Proof.
  intros Hn. pose proof (digits2_pos_bounds p) as [Hlo _].
  set (d := Z.pos (digits2_pos p)) in *.
  destruct (Z_le_gt_dec d 52) as [|Hgt]; [assumption|exfalso].
  assert (2 ^ 52 <= 2 ^ (d - 1)) by (apply Z.pow_le_mono_r; lia). lia.
Qed.

(** Below [2^52] neither the conversion, the halving nor the square root
    raises. *)
Lemma float_ok_small n :
  0 <= n < 2 ^ 52 ->
  (exists x, float_of_int n = Ok x) /\ (exists x, truediv_2 n = Ok x) /\
  (exists x, math_sqrt n = Ok x).
Proof.
  intros [Hn0 Hn]. destruct n as [|p|p]; [|clear Hn0|lia].
  - repeat split; eexists; reflexivity.
  - pose proof (digits2_pos_small Hn) as Hd.
    split; [|split].
    + eexists. now apply float_of_int_exact.
    + eexists. unfold truediv_2.
      rewrite binary_normalize_exact by (assumption || lia). reflexivity.
    + eexists. unfold math_sqrt. rewrite float_of_int_exact by assumption.
      reflexivity.
Qed.

(** The integer square root of a number scaled by an even power of two. *)
Lemma sqrt_scaled P T q r :
  0 <= P -> 0 < T -> P * (T * T) = q * q + r -> 0 <= r <= 2 * q -> 0 <= q ->
  let k := Z.sqrt P in
  k * T <= q < (k + 1) * T /\ (q < r -> k + 1 <= T -> q + 1 < (k + 1) * T).
Proof.
  intros HP HT Heq Hr Hq k.
  pose proof (Z.sqrt_spec P HP) as [Hk1 Hk2]. fold k in Hk1, Hk2.
  assert (Hk0 : 0 <= k) by apply Z.sqrt_nonneg.
  assert (HA : k * T <= q).
  { destruct (Z_le_gt_dec (k * T) q) as [|Hgt]; [assumption|exfalso].
    assert ((q + 1) * (q + 1) <= (k * T) * (k * T)) by nia.
    assert ((k * T) * (k * T) <= P * (T * T)) by nia. nia. }
  assert (HB : q < (k + 1) * T).
  { destruct (Z_lt_ge_dec q ((k + 1) * T)) as [|Hge]; [assumption|exfalso].
    assert (((k + 1) * T) * ((k + 1) * T) <= q * q) by nia.
    assert ((P + 1) * (T * T) <= ((k + 1) * T) * ((k + 1) * T)) by nia. nia. }
  repeat split; try assumption.
  intros Hup HkT.
  destruct (Z_lt_ge_dec (q + 1) ((k + 1) * T)) as [|Hge]; [assumption|exfalso].
  assert (Hq1 : q = (k + 1) * T - 1) by lia.
  assert (HPT : (P + 1) * (T * T) <= ((k + 1) * T) * ((k + 1) * T)) by nia.
  assert (T * T < (k + 1) * T) by nia.
  nia.
Qed.

(** [int(math.sqrt(n))] is the integer square root below [2^52]. *)
Lemma int_math_sqrt_exact n :
  0 <= n < 2 ^ 52 ->
  obind (math_sqrt n) int_of_float = Ok (Z.sqrt n).
Proof.
  intros [Hn0 Hn]. destruct n as [|p|p]; [reflexivity| |lia].
  pose proof (digits2_pos_bounds p) as [Hlo Hhi].
  set (d := Z.pos (digits2_pos p)) in *.
  assert (Hd0 : 0 < d) by (unfold d; lia).
  assert (Hd : d <= 52) by (apply digits2_pos_small; assumption).
  unfold math_sqrt. rewrite float_of_int_exact by exact Hd. fold d.
  cbn [obind]. unfold SFsqrt, SFsqrt_core_binary.
  set (q := Z.to_pos (53 - d)).
  assert (Hq : d + Z.pos q = 53) by (unfold q; lia).
  rewrite (@float_mantissa_digits p q Hq).
  set (h := (d + 1) / 2).
  assert (Hh : 1 <= h <= 26 /\ (d = 2 * h \/ d = 2 * h - 1)).
  { unfold h. pose proof (Z.div_mod (d + 1) 2).
    pose proof (Z.mod_pos_bound (d + 1) 2). lia. }
  assert (He' : Z.min (fexp prec emax (Z.div2 (53 + (d - 53) + 1))) (Z.div2 (d - 53)) = h - 53).
  { rewrite !Z.div2_div. replace (53 + (d - 53) + 1) with (d + 1) by lia. fold h.
    unfold fexp, SpecFloat.emin, prec, emax.
    assert ((d - 53) / 2 >= h - 53).
    { unfold h. pose proof (Z.div_mod (d+1) 2). pose proof (Z.mod_pos_bound (d+1) 2).
      pose proof (Z.div_mod (d-53) 2). pose proof (Z.mod_pos_bound (d-53) 2). lia. }
    lia. }
  rewrite He'.
  set (t := 53 - h). set (T := 2 ^ t).
  assert (HT : 0 < T) by (apply Z.pow_pos_nonneg; lia).
  assert (Hm' : match d - 53 - 2 * (h - 53) with
                | 0 => Z.pos (Pos.iter xO p q)
                | Z.pos _ => Z.shiftl (Z.pos (Pos.iter xO p q)) (d - 53 - 2 * (h - 53))
                | Z.neg _ => 0
                end = Z.pos p * (T * T)).
  { destruct (d - 53 - 2 * (h - 53)) as [|s|s] eqn:Hs; try lia.
    rewrite Z.shiftl_mul_pow2 by lia. rewrite iter_xO_pow.
    unfold T. rewrite <- Z.mul_assoc, <- !Z.pow_add_r by lia.
    do 2 f_equal. lia. }
  change IntDef.Z.shiftl with Z.shiftl. rewrite Hm'.
  change IntDef.Z.sqrtrem with Z.sqrtrem.
  pose proof (Z.sqrtrem_spec (Z.pos p * (T * T))) as Hspec.
  destruct (Z.sqrtrem (Z.pos p * (T * T))) as [q0 r].
  destruct Hspec as [Heq Hr]; [lia|].
  assert (Hq0 : 0 <= q0) by lia.
  destruct (@sqrt_scaled (Z.pos p) T q0 r) as [[HkT HkT'] Hup]; try lia.
  set (k := Z.sqrt (Z.pos p)) in *.
  assert (Hk0 : 0 <= k) by apply Z.sqrt_nonneg.
  pose proof (Z.sqrt_spec (Z.pos p) Hn0) as [Hk1 _]. fold k in Hk1.
  (* the root is below 2^26, the scale at least 2^27 *)
  assert (HkT1 : k + 1 <= T).
  { assert (k < 2 ^ 26).
    { destruct (Z_lt_ge_dec k (2 ^ 26)) as [|Hge]; [assumption|exfalso].
      assert (2 ^ 26 * 2 ^ 26 <= k * k) by nia.
      change (2 ^ 26 * 2 ^ 26) with (2 ^ 52) in *. lia. }
    assert (2 ^ 27 <= T) by (apply Z.pow_le_mono_r; lia).
    change (2 ^ 27) with (2 * 2 ^ 26) in *. lia. }
  (* the scaled root has exactly 53 bits *)
  set (H2 := 2 ^ h).
  assert (HH2 : 0 < H2) by (apply Z.pow_pos_nonneg; lia).
  assert (H53 : 2 ^ 53 = H2 * T)
    by (unfold H2, T; rewrite <- Z.pow_add_r by lia; f_equal; lia).
  assert (H52 : 2 * 2 ^ 52 = H2 * T) by (rewrite <- H53; reflexivity).
  assert (HpH : Z.pos p < H2 * H2).
  { unfold H2. rewrite <- Z.pow_add_r by lia.
    eapply Z.lt_le_trans; [exact Hhi|]. apply Z.pow_le_mono_r; lia. }
  assert (HpL : H2 * H2 <= 4 * Z.pos p).
  { assert (H2 * H2 <= 4 * 2 ^ (d - 1)); [|lia].
    unfold H2. rewrite <- Z.pow_add_r by lia. change 4 with (2 ^ 2).
    rewrite <- Z.pow_add_r by lia. apply Z.pow_le_mono_r; lia. }
  assert (Hq53 : q0 < H2 * T).
  { destruct (Z_lt_ge_dec q0 (H2 * T)) as [|Hge]; [assumption|exfalso].
    assert ((H2 * T) * (H2 * T) <= q0 * q0) by nia.
    assert (Z.pos p * (T * T) < (H2 * T) * (H2 * T)) by nia. lia. }
  assert (Hq52 : H2 * T <= 2 * q0).
  { destruct (Z_le_gt_dec (H2 * T) (2 * q0)) as [|Hgt]; [assumption|exfalso].
    assert (2 * q0 + 2 <= H2 * T) by lia.
    assert ((2 * q0 + 2) * (2 * q0 + 2) <= (H2 * T) * (H2 * T))
      by (apply Z.mul_le_mono_nonneg; lia).
    assert ((H2 * T) * (H2 * T) <= 4 * (Z.pos p * (T * T))) by nia.
    nia. }
  destruct q0 as [|m|m]; try lia.
  set (l := if r =? 0 then loc_Exact
            else loc_Inexact (if r <=? Z.pos m then Lt else Gt)).
  assert (Hl : l <> loc_Inexact Eq)
    by (unfold l; destruct (r =? 0); [|destruct (r <=? Z.pos m)]; discriminate).
  assert (Hround : round_up l = true -> Z.pos m + 1 < (k + 1) * T).
  { unfold l. destruct (r =? 0); [discriminate|].
    destruct (Z.leb_spec r (Z.pos m)); [discriminate|]. intros _. auto. }
  assert (Hdig : Zdigits2 (Z.pos m) = 53)
    by (apply Zdigits2_unique; [lia|]; change (53 - 1) with 52; lia).
  assert (Hdig' : round_up l = true -> Zdigits2 (Z.pos (m + 1)) = 53).
  { intros Hl1. specialize (Hround Hl1).
    apply Zdigits2_unique; [lia|]. change (53 - 1) with 52.
    split; [lia|]. rewrite H53.
    assert (k + 1 <= H2); [|nia].
    destruct (Z_le_gt_dec (k + 1) H2) as [|Hgt]; [assumption|exfalso].
    assert (H2 * T <= k * T) by nia. lia. }
  rewrite (@binary_round_aux_53 m (h - 53) l Hdig); try assumption; try lia.
  unfold int_of_float. cbn [cond_Zopp].
  replace (0 <=? h - 53) with false by (symmetry; apply Z.leb_gt; lia).
  replace (- (h - 53)) with t by (unfold t; lia). fold T.
  f_equal. symmetry.
  destruct (round_up l) eqn:Hru.
  - specialize (Hround eq_refl).
    apply Z.div_unique with (r := Z.pos (m + 1) - k * T); lia.
  - apply Z.div_unique with (r := Z.pos m - k * T); lia.
Qed.
End FloatSqrt.

(* ===================================================================== *)
(** * Divisors and primes *)
(* ===================================================================== *)

Section Primes.

Lemma product_app l1 l2 : product (l1 ++ l2) = product l1 * product l2.
Proof.
  unfold product. induction l1 as [|a l1 IH]; simpl.
  - now destruct (fold_right Z.mul 1 l2).
  - rewrite IH. ring.
Qed.

Lemma StronglySorted_snoc (R : Z -> Z -> Prop) (l : list Z) x :
  StronglySorted R l -> Forall (fun p => R p x) l ->
  StronglySorted R (l ++ [x]).
Proof.
  induction 1 as [|a l Hs IH Ha]; intros Hx; simpl.
  - constructor; constructor.
  - inversion Hx; subst. constructor; [auto|].
    apply Forall_app. split; [assumption|]. constructor; [assumption|constructor].
Qed.

(** A number from 2 on none of whose divisors [q >= 2] has [q * q <= n]. *)
Lemma prime_no_small_divisor n :
  2 <= n -> (forall q, 2 <= q -> q * q <= n -> ~ (q | n)) -> prime n.
Proof.
  intros Hn H. apply prime_alt. split; [lia|].
  intros q Hq [j Hj].
  assert (Hj2 : 2 <= j) by nia.
  destruct (Z_le_gt_dec (q * q) n) as [Hle|Hgt].
  - apply (H q); [lia|assumption|]. now exists j.
  - apply (H j); [assumption|nia|]. exists q. lia.
Qed.

Lemma prime_iff_no_divisor n :
  2 <= n -> (prime n <-> no_divisor_upto_sqrt n).
Proof.
  intros Hn. split.
  - intros Hp d Hd Hdiv. apply prime_alt in Hp. destruct Hp as [_ Hp].
    apply (Hp d); [|assumption].
    pose proof (Z.sqrt_lt_lin n). lia.
  - intros H. apply prime_no_small_divisor; [assumption|].
    intros q Hq Hqq. apply H. split; [assumption|].
    apply Z.sqrt_le_square; lia.
Qed.

End Primes.

(* ===================================================================== *)
(** * factorize *)
(* ===================================================================== *)

Section Factorize.

Lemma factorize_inner_spec n0 s :
  factorize_inv n0 s ->
  exists s', returns (factorize_inner s) s' /\ factorize_inv n0 s' /\
             f_d s' = f_d s /\ f_n s' <= f_n s /\ ~ (f_d s | f_n s').
Proof.
  intros Hs.
  destruct (@while_returns fstate
              (fun s => f_n s mod f_d s =? 0)
              (fun s => ret (FState (f_n s / f_d s) (f_d s) (f_factors s ++ [f_d s])))
              (fun s' => factorize_inv n0 s' /\ f_d s' = f_d s /\ f_n s' <= f_n s)
              (fun s' => Z.to_nat (f_n s'))) with (s := s)
    as (s' & Hret & (Hinv & Hd & Hn) & Hc).
  - intros [n d fs] ((Hn1 & Hd2 & Hprod & Hpr & Hsort & Hle & Hnd) & Hd & Hn) Hc.
    cbn [f_n f_d f_factors] in *. apply Z.eqb_eq in Hc.
    assert (Hdiv : (d | n)) by (apply Z.mod_divide; [lia|assumption]).
    assert (Hnd' : n = d * (n / d)) by (apply Z.div_exact; [lia|assumption]).
    assert (Hq1 : 1 <= n / d) by nia.
    eexists. split; [apply returns_ret|].
    unfold factorize_inv. cbn [f_n f_d f_factors]. repeat split; try lia.
    + rewrite product_app. cbn [product fold_right]. rewrite <- Hprod.
      rewrite Hnd' at 2. ring.
    + apply Forall_app. split; [assumption|]. constructor; [|constructor].
      apply prime_alt. split; [lia|]. intros q Hq Hqd.
      apply (Hnd q); [lia|]. now apply Z.divide_trans with d.
    + now apply StronglySorted_snoc.
    + apply Forall_app. split; [assumption|]. constructor; [lia|constructor].
    + intros q Hq Hqd. apply (Hnd q Hq). rewrite Hnd'. now apply Z.divide_mul_r.
    + nia.
    + assert (n / d < n) by (apply Z.div_lt; lia). lia.
  - split; [exact Hs|lia].
  - exists s'. do 4 (split; [assumption|]).
    apply Z.eqb_neq in Hc. rewrite Hd in Hc. intros Hdiv. apply Hc.
    destruct Hinv as (_ & Hd2 & _).
    apply Z.mod_divide; [lia|exact Hdiv].
Qed.

Lemma factorize_outer_spec n0 s :
  factorize_inv n0 s ->
  exists s', returns (factorize_outer s) s' /\ factorize_inv n0 s' /\
             f_n s' < f_d s' * f_d s'.
Proof.
  intros Hs.
  destruct (@while_returns fstate
              (fun s => f_d s * f_d s <=? f_n s)
              (fun s => s1 <- factorize_inner s ;;
                        ret (FState (f_n s1) (f_d s1 + 1) (f_factors s1)))
              (factorize_inv n0)
              (fun s' => Z.to_nat (f_n s' + 1 - f_d s'))) with (s := s)
    as (s' & Hret & Hinv & Hc); [|assumption|].
  - intros s0 Hinv Hc. apply Z.leb_le in Hc.
    destruct (factorize_inner_spec Hinv) as (s1 & Hret & Hinv1 & Hd & Hn & Hnd).
    eexists. split; [eapply yields_bind; [exact Hret|apply returns_ret]|].
    destruct Hinv as (Hn1 & Hd2 & _).
    destruct Hinv1 as (Hn1' & Hd2' & Hprod & Hpr & Hsort & Hle & Hndiv).
    unfold factorize_inv. cbn [f_n f_d f_factors].
    repeat split; try assumption; try lia.
    + eapply Forall_impl; [|exact Hle]. cbn beta. intros; lia.
    + intros q Hq. destruct (Z.eq_dec q (f_d s1)) as [->|Hne].
      * now rewrite Hd.
      * apply Hndiv. lia.
    + nia.
  - exists s'. do 2 (split; [assumption|]). apply Z.leb_gt in Hc. exact Hc.
Qed.

Lemma factorize_small n : n < 2 -> returns (factorize n) [n].
Proof.
  intros Hn. unfold factorize.
  replace (n <? 2) with true by (symmetry; apply Z.ltb_lt; lia).
  apply returns_ret.
Qed.

Lemma factorize_init n : 2 <= n -> factorize_inv n (FState n 2 []).
Proof.
  intros Hn. unfold factorize_inv. cbn [f_n f_d f_factors product fold_right].
  repeat split; try lia; try constructor.
Qed.

Lemma factorize_returns n :
  2 <= n ->
  exists l, returns (factorize n) l /\ product l = n /\
            Forall prime l /\ StronglySorted Z.le l.
Proof.
  intros Hn. unfold factorize.
  replace (n <? 2) with false by (symmetry; apply Z.ltb_ge; lia).
  destruct (factorize_outer_spec (factorize_init Hn)) as (s & Hret & Hinv & Hexit).
  destruct Hinv as (Hn1 & Hd2 & Hprod & Hpr & Hsort & Hle & Hnd).
  eexists. split; [eapply yields_bind; [exact Hret|apply returns_ret]|].
  destruct (Z.ltb_spec 1 (f_n s)) as [Hgt|Hle1].
  - assert (Hdn : f_d s <= f_n s).
    { destruct (Z_le_gt_dec (f_d s) (f_n s)) as [|Hlt]; [assumption|exfalso].
      apply (Hnd (f_n s)); [lia|apply Z.divide_refl]. }
    split; [|split].
    + rewrite product_app. cbn [product fold_right]. rewrite <- Hprod. ring.
    + apply Forall_app. split; [assumption|]. constructor; [|constructor].
      apply prime_no_small_divisor; [lia|]. intros q Hq Hqq. apply Hnd. nia.
    + apply StronglySorted_snoc; [assumption|].
      eapply Forall_impl; [|exact Hle]. cbn beta. intros; lia.
  - replace (f_n s) with 1 in Hprod by lia.
    split; [lia|]. split; assumption.
Qed.

End Factorize.

(** C3. For every integer n >= 2 the factors that [factorize] returns
    multiply back to n, are all prime and come in nondecreasing order; for
    every n < 2 it returns the one-element list [n]. *)
Theorem factorize_correct (n : Z) :
  (2 <= n ->
   exists l, returns (factorize n) l /\ product l = n /\
             Forall prime l /\ StronglySorted Z.le l) /\
  (n < 2 -> returns (factorize n) [n]).
Proof. split; [apply factorize_returns|apply factorize_small]. Qed.

Lemma factorize_correct_witness :
  (2 <= 255 /\
   exists l, returns (factorize 255) l /\ product l = 255 /\
             Forall prime l /\ StronglySorted Z.le l) /\
  (1 < 2 /\ returns (factorize 1) [1]).
Proof.
  split; (split; [lia|]).
  - apply (factorize_correct 255). lia.
  - apply (factorize_correct 1). lia.
Defined.

Lemma mono_factorize n : mono (factorize n).
Proof.
  unfold factorize. destruct (n <? 2); [apply mono_ret|].
  apply mono_bind; [|intros; apply mono_ret].
  apply mono_while. intros s. apply mono_bind; [|intros; apply mono_ret].
  apply mono_while. intros; apply mono_ret.
Qed.

(* ===================================================================== *)
(** * is_prime *)
(* ===================================================================== *)

Section IsPrime.

Lemma range_nil a b : b <= a -> range a b = [].
Proof. intros H. unfold range. now replace (Z.to_nat (b - a)) with 0%nat by lia. Qed.

Lemma range_snoc a b : a <= b -> range a (b + 1) = range a b ++ [b].
Proof.
  intros H. unfold range.
  replace (Z.to_nat (b + 1 - a)) with (S (Z.to_nat (b - a))) by lia.
  rewrite seq_S, map_app. cbn [map]. do 2 f_equal. lia.
Qed.

Lemma in_range a b i : In i (range a b) <-> a <= i < b.
Proof.
  unfold range. rewrite in_map_iff. split.
  - intros (k & Hk & Hin). apply in_seq in Hin. lia.
  - intros H. exists (Z.to_nat (i - a)). split; [lia|]. apply in_seq. lia.
Qed.

Lemma range_sorted a b : StronglySorted Z.lt (range a b).
Proof.
  unfold range. generalize (Z.to_nat (b - a)) as k. generalize 0%nat as st.
  intros st k. revert st. induction k as [|k IH]; intros st; cbn [seq map].
  - constructor.
  - constructor; [apply IH|]. apply Forall_forall. intros x Hx.
    apply in_map_iff in Hx. destruct Hx as (j & <- & Hj).
    apply in_seq in Hj. lia.
Qed.

Lemma is_prime_loop_spec n l :
  is_prime_loop n l = true <-> (forall i, In i l -> n mod i <> 0).
Proof.
  induction l as [|i l IH]; cbn [is_prime_loop].
  - split; [intros _ i []|reflexivity].
  - destruct (Z.eqb_spec (n mod i) 0) as [E|E].
    + split; [discriminate|]. intros H. exfalso. apply (H i); [now left|assumption].
    + rewrite IH. split.
      * intros H j [<-|Hj]; auto.
      * intros H j Hj. apply H. now right.
Qed.

Lemma is_prime_small n : n < 2 -> is_prime n = Ok false.
Proof.
  intros H. unfold is_prime.
  now replace (n <? 2) with true by (symmetry; apply Z.ltb_lt; lia).
Qed.

(** From 2 on the loop runs over [[2, int(math.sqrt(n))]]. *)
Lemma is_prime_unfold n r :
  2 <= n -> obind (math_sqrt n) int_of_float = Ok r ->
  is_prime n = Ok (is_prime_loop n (range 2 (r + 1))).
Proof.
  intros Hn H. unfold is_prime.
  replace (n <? 2) with false by (symmetry; apply Z.ltb_ge; lia).
  destruct (math_sqrt n) as [x|e]; cbn [obind] in *; [|discriminate].
  now rewrite H.
Qed.

Lemma sqrt_adequate_small n : 2 <= n < sqrt_exact_bound -> sqrt_adequate n.
Proof.
  intros [Hn Hb]. exists (Z.sqrt n). split.
  - apply int_math_sqrt_exact. unfold sqrt_exact_bound in Hb. lia.
  - pose proof (Z.sqrt_lt_lin n). lia.
Qed.

(** Trial division up to an adequate bound decides primality. *)
Lemma is_prime_loop_adequate n r :
  2 <= n -> Z.sqrt n <= r < n ->
  is_prime_loop n (range 2 (r + 1)) = true <-> no_divisor_upto_sqrt n.
Proof.
  intros Hn Hr. rewrite is_prime_loop_spec. split.
  - intros H d Hd Hdiv. apply (H d); [apply in_range; lia|].
    apply Z.mod_divide; [lia|assumption].
  - intros H i Hi Hmod. apply in_range in Hi.
    apply prime_iff_no_divisor in H; [|assumption].
    apply prime_alt in H. destruct H as [_ H]. apply (H i); [lia|].
    apply Z.mod_divide; [lia|assumption].
Qed.

Lemma is_prime_prime_b n :
  n < 2 \/ sqrt_adequate n -> is_prime n = Ok (prime_b n).
Proof.
  intros H. unfold prime_b. destruct (Z_lt_ge_dec n 2) as [Hlt|Hge].
  - rewrite is_prime_small by assumption.
    destruct (prime_dec n) as [Hp|]; [|reflexivity].
    apply prime_alt in Hp. destruct Hp. lia.
  - destruct H as [H|(r & Hr & Hb)]; [lia|].
    rewrite (@is_prime_unfold n r ltac:(lia) Hr). f_equal.
    destruct (prime_dec n) as [Hp|Hp].
    + apply is_prime_loop_adequate; [lia|assumption|].
      apply prime_iff_no_divisor; [lia|assumption].
    + destruct (is_prime_loop n (range 2 (r + 1))) eqn:E; [|reflexivity].
      exfalso. apply Hp. apply prime_iff_no_divisor; [lia|].
      apply (@is_prime_loop_adequate n r ltac:(lia) Hb). assumption.
Qed.

Lemma product_primes_pos l : Forall prime l -> 1 <= product l.
Proof.
  induction 1 as [|p l Hp _ IH]; cbn [product fold_right]; [lia|].
  apply prime_alt in Hp. destruct Hp. fold (product l). nia.
Qed.

(** Where the bound is adequate, [is_prime] is trial division up to the
    square root. *)
Lemma is_prime_adequate n :
  2 <= n -> sqrt_adequate n ->
  exists b, is_prime n = Ok b /\ (b = true <-> no_divisor_upto_sqrt n).
Proof.
  intros Hn (r & Hr & Hb). eexists. split; [exact (is_prime_unfold Hn Hr)|].
  now apply is_prime_loop_adequate.
Qed.

(** A number with two prime factors or more is not prime. *)
Lemma is_prime_composite n l :
  n < 2 \/ sqrt_adequate n ->
  returns (factorize n) l -> (1 < List.length l)%nat ->
  is_prime n = Ok false.
Proof.
  intros Hb Hl Hlen. rewrite is_prime_prime_b by assumption. f_equal.
  unfold prime_b. destruct (prime_dec n) as [Hp|]; [exfalso|reflexivity].
  assert (Hn : 2 <= n) by (apply prime_alt in Hp; destruct Hp; lia).
  destruct (factorize_returns Hn) as (l' & Hl' & Hprod & Hpr & _).
  assert (El : l' = l) by (pose proof (yields_unique Hl Hl'); congruence).
  rewrite El in *. clear El Hl'.
  destruct l as [|p [|q r]]; cbn [List.length] in Hlen; try lia.
  pose proof (Forall_inv Hpr) as Hp1.
  pose proof (Forall_inv (Forall_inv_tail Hpr)) as Hq1.
  pose proof (product_primes_pos (Forall_inv_tail (Forall_inv_tail Hpr))) as Hr.
  cbn [product fold_right] in Hprod. fold (product r) in Hprod, Hr.
  apply prime_alt in Hp1. destruct Hp1 as [Hp1 _].
  apply prime_alt in Hq1. destruct Hq1 as [Hq1 _].
  apply prime_alt in Hp. destruct Hp as [_ Hp].
  assert (Hqr : 2 <= q * product r) by nia.
  apply (Hp p); [nia|]. exists (q * product r). lia.
Qed.

End IsPrime.

(** C4 (the code at the failing input, and where the claim holds). At
    n = 2^1024, which [factorize] splits into 1024 factors, [is_prime]
    raises OverflowError: its bound is [int(math.sqrt(n))], and the
    conversion of n to a float fails. Below 2^52, where that bound is the
    integer square root, the claim holds: [is_prime] is false for every
    n < 2, true for n >= 2 exactly when no integer of
    [[2, floor (sqrt n)]] divides n, and false whenever [factorize n] has
    more than one element. *)
Theorem is_prime_float_bound :
  (exists l, returns (factorize (2 ^ 1024)) l /\ (1 < List.length l)%nat /\
             is_prime (2 ^ 1024) = Raise OverflowError) /\
  (forall n, n < 2 -> is_prime n = Ok false) /\
  (forall n, 2 <= n < 2 ^ 52 ->
     exists b, is_prime n = Ok b /\ (b = true <-> no_divisor_upto_sqrt n)) /\
  (forall n l, n < 2 ^ 52 -> returns (factorize n) l ->
               (1 < List.length l)%nat -> is_prime n = Ok false).
Proof.
  split; [|split; [apply is_prime_small|split]].
  - exists (repeat 2 1024). split; [|split].
    + apply mono_yields with (f := 1100%nat); [apply mono_factorize|].
      vm_compute. reflexivity.
    + rewrite repeat_length. lia.
    + vm_compute. reflexivity.
  - intros n Hn. apply is_prime_adequate; [lia|].
    now apply sqrt_adequate_small.
  - intros n l Hn. apply is_prime_composite.
    destruct (Z_lt_le_dec n 2); [now left|right].
    apply sqrt_adequate_small. unfold sqrt_exact_bound. lia.
Qed.

Lemma is_prime_float_bound_witness :
  (1 < 2 /\ is_prime 1 = Ok false) /\
  (2 <= 97 < 2 ^ 52 /\
   exists b, is_prime 97 = Ok b /\ (b = true <-> no_divisor_upto_sqrt 97)) /\
  (12 < 2 ^ 52 /\ returns (factorize 12) [2; 2; 3] /\
   (1 < List.length [2; 2; 3])%nat /\ is_prime 12 = Ok false).
Proof.
  destruct is_prime_float_bound as (_ & Hsmall & Hiff & Hcomp).
  assert (H12 : returns (factorize 12) [2; 2; 3])
    by (apply mono_yields with (f := 20%nat); [apply mono_factorize|reflexivity]).
  split; [split; [lia|apply (Hsmall 1); lia]|].
  split; [split; [lia|apply (Hiff 97); lia]|].
  split; [lia|]. split; [exact H12|]. split; [cbn; lia|].
  apply (Hcomp 12 [2; 2; 3]); [lia|exact H12|cbn; lia].
Defined.

(* ===================================================================== *)
(** * find_previous_primes *)
(* ===================================================================== *)

Section PreviousPrimes.

Lemma descending_nil c : c < 2 -> descending c = [].
Proof. intros H. unfold descending. now rewrite range_nil by lia. Qed.

Lemma descending_cons c : 2 <= c -> descending c = c :: descending (c - 1).
Proof.
  intros H. unfold descending. rewrite range_snoc by lia.
  rewrite rev_app_distr. cbn [rev app]. do 3 f_equal. lia.
Qed.

Lemma descending_sorted c : StronglySorted Z.gt (descending c).
Proof.
  unfold descending. generalize (range_sorted 2 (c + 1)).
  generalize (range 2 (c + 1)) as l.
  induction 1 as [|a l Hs IH Ha]; cbn [rev]; [constructor|].
  apply StronglySorted_snoc; [assumption|].
  apply Forall_forall. intros x Hx. apply in_rev in Hx.
  rewrite Forall_forall in Ha. specialize (Ha x Hx). lia.
Qed.

Lemma StronglySorted_filter (R : Z -> Z -> Prop) f l :
  StronglySorted R l -> StronglySorted R (filter f l).
Proof.
  induction 1 as [|a l Hs IH Ha]; cbn [filter]; [constructor|].
  destruct (f a); [|assumption]. constructor; [assumption|].
  apply Forall_forall. intros x Hx. apply filter_In in Hx.
  rewrite Forall_forall in Ha. now apply Ha.
Qed.

Lemma in_firstn (k : nat) (l : list Z) x : In x (firstn k l) -> In x l.
Proof.
  intros H. rewrite <- (firstn_skipn k l). apply in_or_app. now left.
Qed.

Lemma StronglySorted_firstn (R : Z -> Z -> Prop) k l :
  StronglySorted R l -> StronglySorted R (firstn k l).
Proof.
  intros H. revert k. induction H as [|a l Hs IH Ha]; intros [|k];
    cbn [firstn]; try constructor; [apply IH|].
  apply Forall_forall. intros x Hx. apply in_firstn in Hx.
  rewrite Forall_forall in Ha. now apply Ha.
Qed.

(** The scan returns the first [count] primes met from [n - 1] downwards. *)
Lemma find_previous_primes_spec n count :
  (forall c, 2 <= c < n -> sqrt_adequate c) ->
  returns (find_previous_primes n count)
          (firstn (Z.to_nat count) (filter prime_b (descending (n - 1)))).
Proof.
  intros Hb. set (c := Z.to_nat count). set (L := filter prime_b (descending (n - 1))).
  destruct (@while_returns pstate
              (fun s => (Z.of_nat (List.length (p_primes s)) <? count)
                        && (1 <? p_candidate s))
              (fun s => b <- lift (is_prime (p_candidate s)) ;;
                        ret (PState (if b then p_primes s ++ [p_candidate s]
                                     else p_primes s)
                                    (p_candidate s - 1)))
              (fun s => p_candidate s < n /\
                        firstn c L =
                        firstn c (p_primes s ++
                                  filter prime_b (descending (p_candidate s))) /\
                        (List.length (p_primes s) <= c)%nat)
              (fun s => Z.to_nat (p_candidate s))) with (s := PState [] (n - 1))
    as (s' & Hret & (Hcb & Heq & Hlen) & Hc).
  - intros [primes cand] (Hcb & Heq & Hlen) Hc. cbn [p_primes p_candidate] in *.
    apply andb_true_iff in Hc. destruct Hc as [Hc1 Hc2].
    apply Z.ltb_lt in Hc1, Hc2.
    eexists. split.
    { eapply yields_bind; [|apply returns_ret].
      rewrite is_prime_prime_b by (right; apply Hb; lia). apply yields_lift. }
    cbn [p_primes p_candidate]. split; [split; [lia|split]|lia].
    + rewrite Heq. f_equal. rewrite descending_cons by lia. cbn [filter].
      destruct (prime_b cand); [|reflexivity].
      now rewrite <- app_assoc.
    + destruct (prime_b cand); [rewrite length_app; cbn [List.length]|]; lia.
  - cbn [p_primes p_candidate app List.length]. split; [lia|]. split; [reflexivity|lia].
  - unfold find_previous_primes, previous_primes_loop.
    eapply yields_bind; [exact Hret|].
    replace (firstn c L) with (p_primes s'); [apply returns_ret|].
    rewrite Heq. apply andb_false_iff in Hc. destruct Hc as [Hc|Hc].
    + apply Z.ltb_ge in Hc.
      assert (Hl : List.length (p_primes s') = c) by lia.
      rewrite firstn_app, Hl, Nat.sub_diag, <- Hl, firstn_all. cbn [firstn].
      now rewrite app_nil_r.
    + apply Z.ltb_ge in Hc. rewrite descending_nil by lia.
      cbn [filter]. rewrite app_nil_r. now rewrite firstn_all2.
Qed.

(** Where the bound of [is_prime] is adequate for every candidate, the
    scan returns the eight primes nearest below n. *)
Lemma find_previous_primes_adequate n :
  (forall c, 2 <= c < n -> sqrt_adequate c) ->
  exists l,
    returns (find_previous_primes n 8) l /\
    l = firstn 8 (rev (primes_below n)) /\
    StronglySorted Z.gt l /\
    Forall prime l /\
    Forall (fun p => p < n) l /\
    List.length l = Nat.min 8 (List.length (primes_below n)) /\
    (n <= 2 -> l = []).
Proof.
  intros Hb. eexists. split; [apply find_previous_primes_spec; assumption|].
  change (Z.to_nat 8) with 8%nat.
  assert (E : filter prime_b (descending (n - 1)) = rev (primes_below n)).
  { unfold descending, primes_below. replace (n - 1 + 1) with n by lia.
    apply filter_rev. }
  split; [now rewrite E|]. split; [|split; [|split; [|split]]].
  - apply StronglySorted_firstn, StronglySorted_filter, descending_sorted.
  - apply Forall_forall. intros x Hx. apply in_firstn, filter_In in Hx.
    destruct Hx as [_ Hx]. unfold prime_b in Hx.
    now destruct (prime_dec x).
  - apply Forall_forall. intros x Hx. apply in_firstn, filter_In in Hx.
    destruct Hx as [Hx _]. unfold descending in Hx.
    apply in_rev, in_range in Hx. lia.
  - rewrite E, length_firstn, length_rev. reflexivity.
  - intros Hn. now rewrite descending_nil by lia.
Qed.

End PreviousPrimes.

(** C5 (the code at the failing input, and where the claim holds).
    [find_previous_primes (2^1024 + 1) 8] raises OverflowError and returns
    no list: its first candidate, 2^1024, makes [is_prime] fail in
    [int(math.sqrt(n))]. For every n up to 2^52 the claim holds: the scan
    returns the primes below n nearest first, at most 8 of them, a strictly
    decreasing list of primes, each less than n, of length
    min (8, number of primes below n), empty for n <= 2. *)
Theorem find_previous_primes_float_bound :
  raises (find_previous_primes (2 ^ 1024 + 1) 8) OverflowError /\
  ~ (exists l, returns (find_previous_primes (2 ^ 1024 + 1) 8) l) /\
  (forall n, n <= 2 ^ 52 ->
     exists l,
       returns (find_previous_primes n 8) l /\
       l = firstn 8 (rev (primes_below n)) /\
       StronglySorted Z.gt l /\
       Forall prime l /\
       Forall (fun p => p < n) l /\
       List.length l = Nat.min 8 (List.length (primes_below n)) /\
       (n <= 2 -> l = [])).
Proof.
  assert (H : raises (find_previous_primes (2 ^ 1024 + 1) 8) OverflowError).
  { exists 1%nat. intros [|f] Hf; [lia|]. vm_compute. reflexivity. }
  split; [exact H|]. split.
  - intros [l Hl]. pose proof (yields_unique H Hl). discriminate.
  - intros n Hn. apply find_previous_primes_adequate.
    intros c Hc. apply sqrt_adequate_small. unfold sqrt_exact_bound. lia.
Qed.

Lemma find_previous_primes_float_bound_witness :
  30 <= 2 ^ 52 /\
  exists l,
    returns (find_previous_primes 30 8) l /\
    l = firstn 8 (rev (primes_below 30)) /\
    StronglySorted Z.gt l /\
    Forall prime l /\
    Forall (fun p => p < 30) l /\
    List.length l = Nat.min 8 (List.length (primes_below 30)) /\
    (30 <= 2 -> l = []).
Proof.
  destruct find_previous_primes_float_bound as (_ & _ & H).
  split; [lia|]. apply (H 30). lia.
Defined.

(* ===================================================================== *)
(** * Termination *)
(* ===================================================================== *)

Section Termination.

Lemma terminates_factorize n : terminates (factorize n).
Proof.
  destruct (Z_lt_ge_dec n 2) as [Hlt|Hge].
  - exists (Ok [n]). now apply factorize_small.
  - destruct (@factorize_returns n ltac:(lia)) as (l & Hl & _). now exists (Ok l).
Qed.

(** The scan either returns a state where the condition of the loop fails,
    or ends with the exception [is_prime] raised. *)
Lemma previous_primes_loop_terminates count s :
  (exists s', returns (previous_primes_loop count s) s' /\
              ((Z.of_nat (List.length (p_primes s')) <? count)
               && (1 <? p_candidate s') = false)) \/
  (exists e, raises (previous_primes_loop count s) e).
Proof.
  destruct (@while_terminates pstate
              (fun s => (Z.of_nat (List.length (p_primes s)) <? count)
                        && (1 <? p_candidate s))
              (fun s => b <- lift (is_prime (p_candidate s)) ;;
                        ret (PState (if b then p_primes s ++ [p_candidate s]
                                     else p_primes s)
                                    (p_candidate s - 1)))
              (fun _ => True) (fun _ => True)
              (fun s => Z.to_nat (p_candidate s))) with (s := s)
    as [(s' & Hret & _ & Hc)|(e & He & _)]; [|exact I| |].
  - intros s0 _ Hc. apply andb_true_iff in Hc. destruct Hc as [_ Hc].
    apply Z.ltb_lt in Hc.
    destruct (is_prime (p_candidate s0)) as [b|e] eqn:E.
    + left. eexists. split; [|split; [exact I|]].
      * eapply yields_bind; [apply yields_lift|apply returns_ret].
      * cbn [p_candidate]. lia.
    + right. exists e. split; [|exact I]. apply raises_bind. apply yields_lift.
  - left. now exists s'.
  - right. now exists e.
Qed.

Lemma terminates_find_previous_primes n count :
  terminates (find_previous_primes n count).
Proof.
  unfold find_previous_primes.
  destruct (previous_primes_loop_terminates count (PState [] (n - 1)))
    as [(s' & Hret & _)|[e He]].
  - exists (Ok (p_primes s')). eapply yields_bind; [exact Hret|apply returns_ret].
  - exists (Raise e). now apply raises_bind.
Qed.

End Termination.

(** C9. [factorize], [is_prime] and [find_previous_primes] terminate on
    every integer: each yields an outcome with enough fuel. The trial
    division of [factorize] stops in a state where the square of the trial
    divisor exceeds the remaining cofactor; whenever the scan of
    [find_previous_primes] returns, it has collected [count] primes or its
    candidate is below 2. *)
Theorem loops_terminate (n count : Z) :
  terminates (factorize n) /\
  (2 <= n ->
   exists s, returns (factorize_outer (FState n 2 [])) s /\
             f_n s < f_d s * f_d s) /\
  terminates (lift (is_prime n)) /\
  terminates (find_previous_primes n count) /\
  (forall s, returns (previous_primes_loop count (PState [] (n - 1))) s ->
             count <= Z.of_nat (List.length (p_primes s)) \/ p_candidate s < 2).
Proof.
  split; [apply terminates_factorize|]. split; [|split; [|split]].
  - intros Hn.
    destruct (factorize_outer_spec (factorize_init Hn)) as (s & Hret & _ & Hexit).
    now exists s.
  - exists (is_prime n). apply yields_lift.
  - apply terminates_find_previous_primes.
  - intros s Hs.
    destruct (previous_primes_loop_terminates count (PState [] (n - 1)))
      as [(s' & Hret & Hc)|[e He]].
    + assert (E : s' = s) by (pose proof (yields_unique Hret Hs); congruence).
      rewrite E in Hc. apply andb_false_iff in Hc.
      destruct Hc as [Hc|Hc]; apply Z.ltb_ge in Hc; lia.
    + pose proof (yields_unique He Hs). discriminate.
Qed.

Lemma loops_terminate_witness :
  2 <= 255 /\
  exists s, returns (factorize_outer (FState 255 2 [])) s /\
            f_n s < f_d s * f_d s.
Proof.
  split; [lia|]. apply (loops_terminate 255 8). lia.
Defined.

(* ===================================================================== *)
(** * is_fibonacci *)
(* ===================================================================== *)

Section Fibonacci.

Lemma perfect_square_sqrt m :
  0 <= m -> (Z.sqrt m ^ 2 =? m) = true <-> perfect_square m.
Proof.
  intros Hm. rewrite Z.eqb_eq, Z.pow_2_r. split.
  - intros H. now exists (Z.sqrt m).
  - intros [k Hk]. subst m.
    destruct (Z_le_gt_dec 0 k) as [Hk|Hk].
    + now rewrite Z.sqrt_square.
    + replace (k * k) with ((- k) * (- k)) by ring.
      now rewrite Z.sqrt_square by lia.
Qed.

Lemma perfect_square_nonneg m : perfect_square m -> 0 <= m.
Proof. intros [k <-]. nia. Qed.

Lemma is_fibonacci_negative n : n < 0 -> is_fibonacci n = Ok false.
Proof.
  intros Hn. unfold is_fibonacci.
  now replace (n <? 0) with true by (symmetry; apply Z.ltb_lt; lia).
Qed.

Lemma is_fibonacci_nonneg n :
  0 <= n ->
  exists b, is_fibonacci n = Ok b /\
            (b = true <-> perfect_square (5 * n * n + 4) \/
                          perfect_square (5 * n * n - 4)).
Proof.
  intros Hn. unfold is_fibonacci, math_isqrt.
  replace (n <? 0) with false by (symmetry; apply Z.ltb_ge; lia).
  assert (Hx : 0 <= 5 * n * n) by nia.
  replace (5 * n * n + 4 <? 0) with false by (symmetry; apply Z.ltb_ge; lia).
  cbn [obind].
  destruct (Z.sqrt (5 * n * n + 4) ^ 2 =? 5 * n * n + 4) eqn:E1.
  - exists true. split; [reflexivity|]. split; [|reflexivity].
    intros _. left. apply perfect_square_sqrt; [lia|assumption].
  - assert (Hn1 : 1 <= n).
    { destruct (Z.eq_dec n 0) as [->|]; [discriminate E1|lia]. }
    assert (Hx4 : 0 <= 5 * n * n - 4) by nia.
    replace (5 * n * n - 4 <? 0) with false by (symmetry; apply Z.ltb_ge; lia).
    cbn [obind]. eexists. split; [reflexivity|].
    rewrite perfect_square_sqrt by assumption. split; [now right|].
    intros [H|H]; [|assumption].
    apply perfect_square_sqrt in H; [congruence|lia].
Qed.

End Fibonacci.

(** C6. [is_fibonacci] is false for every negative n; for every n >= 0 it
    is true exactly when 5n^2 + 4 or 5n^2 - 4 is a perfect square; it is
    true for 0, 1, 2, 3, 5, 8, 13, 21 and false for 4, 6, 7, 9, 10. *)
Theorem is_fibonacci_correct :
  (forall n, n < 0 -> is_fibonacci n = Ok false) /\
  (forall n, 0 <= n ->
     exists b, is_fibonacci n = Ok b /\
               (b = true <-> perfect_square (5 * n * n + 4) \/
                             perfect_square (5 * n * n - 4))) /\
  Forall (fun k => is_fibonacci k = Ok true) [0; 1; 2; 3; 5; 8; 13; 21] /\
  Forall (fun k => is_fibonacci k = Ok false) [4; 6; 7; 9; 10].
Proof.
  split; [exact is_fibonacci_negative|]. split; [exact is_fibonacci_nonneg|].
  split; repeat constructor.
Qed.

Lemma is_fibonacci_correct_witness :
  (-3 < 0 /\ is_fibonacci (-3) = Ok false) /\
  (0 <= 8 /\
   exists b, is_fibonacci 8 = Ok b /\
             (b = true <-> perfect_square (5 * 8 * 8 + 4) \/
                           perfect_square (5 * 8 * 8 - 4))).
Proof.
  destruct is_fibonacci_correct as (Hneg & Hpos & _).
  split; (split; [lia|]).
  - apply Hneg. lia.
  - apply Hpos. lia.
Defined.

(* ===================================================================== *)
(** * The reinterpretations *)
(* ===================================================================== *)

Section Reinterpretations.

Lemma number_to_ipv4_invalid n :
  n < 0 \/ 4294967295 < n -> number_to_ipv4 n = invalid_ipv4.
Proof.
  intros H. unfold number_to_ipv4.
  replace ((0 <=? n) && (n <=? 4294967295)) with false; [reflexivity|].
  symmetry. apply andb_false_iff.
  destruct H; [left; apply Z.leb_gt|right; apply Z.leb_gt]; lia.
Qed.

Lemma number_to_ipv4_valid n :
  0 <= n <= 4294967295 -> dotted_quad n (number_to_ipv4 n).
Proof.
  intros H. unfold number_to_ipv4.
  replace ((0 <=? n) && (n <=? 4294967295)) with true
    by (symmetry; apply andb_true_iff; split; apply Z.leb_le; lia).
  exists (Z.land (Z.shiftr n 24) 255), (Z.land (Z.shiftr n 16) 255),
         (Z.land (Z.shiftr n 8) 255), (Z.land n 255).
  split; [|split; [|reflexivity]].
  - change 255 with (Z.ones 8). rewrite !Z.land_ones by lia.
    repeat split; apply Z.mod_pos_bound || (apply Z.lt_succ_r, Z.mod_pos_bound);
      reflexivity.
  - change 255 with (Z.ones 8). rewrite !Z.land_ones, !Z.shiftr_div_pow2 by lia.
    change (2 ^ 24) with 16777216. change (2 ^ 16) with 65536.
    change (2 ^ 8) with 256.
    Z.div_mod_to_equations. lia.
Qed.

Lemma unix_to_datetime_invalid {cal : Calendar} n :
  n < 0 \/ 2000000000 < n -> unix_to_datetime n = Ok invalid_timestamp.
Proof.
  intros H. unfold unix_to_datetime.
  replace ((0 <=? n) && (n <=? 2000000000)) with false; [reflexivity|].
  symmetry. apply andb_false_iff.
  destruct H; [left; apply Z.leb_gt|right; apply Z.leb_gt]; lia.
Qed.

Lemma unix_to_datetime_valid {cal : Calendar} n t :
  0 <= n <= 2000000000 -> datetime_strftime n = Ok t ->
  unix_to_datetime n = Ok t.
Proof.
  intros H Ht. unfold unix_to_datetime.
  replace ((0 <=? n) && (n <=? 2000000000)) with true
    by (symmetry; apply andb_true_iff; split; apply Z.leb_le; lia).
  now rewrite Ht.
Qed.

End Reinterpretations.

(** C7. [number_to_ipv4] returns a dotted quad for 0 and for 4294967295
    (for every n of [[0, 2^32 - 1]]) and the invalid marker for 4294967296
    (for every n outside); [unix_to_datetime] returns the calendar string
    of the platform for 2000000000 (for every n of [[0, 2000000000]] the
    platform converts) and the invalid marker for 2000000001 (for every n
    outside). *)
Theorem reinterpretation_boundaries (cal : Calendar) :
  (number_to_ipv4 0 = "0.0.0.0" /\
   number_to_ipv4 4294967295 = "255.255.255.255" /\
   number_to_ipv4 4294967296 = invalid_ipv4) /\
  (forall n, 0 <= n <= 4294967295 -> dotted_quad n (number_to_ipv4 n)) /\
  (forall n, n < 0 \/ 4294967295 < n -> number_to_ipv4 n = invalid_ipv4) /\
  (forall t, datetime_strftime 2000000000 = Ok t ->
             unix_to_datetime 2000000000 = Ok t) /\
  (forall n t, 0 <= n <= 2000000000 -> datetime_strftime n = Ok t ->
               unix_to_datetime n = Ok t) /\
  unix_to_datetime 2000000001 = Ok invalid_timestamp /\
  (forall n, n < 0 \/ 2000000000 < n ->
             unix_to_datetime n = Ok invalid_timestamp).
Proof.
  split; [repeat split|]. split; [apply number_to_ipv4_valid|].
  split; [apply number_to_ipv4_invalid|].
  split; [intros t; apply unix_to_datetime_valid; lia|].
  split; [intros n t; apply unix_to_datetime_valid|].
  split; [reflexivity|apply unix_to_datetime_invalid].
Qed.

Lemma reinterpretation_boundaries_witness :
  (0 <= 3232235777 <= 4294967295 /\
   dotted_quad 3232235777 "192.168.1.1") /\
  (4294967295 < 4294967296 /\ number_to_ipv4 4294967296 = invalid_ipv4) /\
  (datetime_strftime (Calendar := utc_calendar) 2000000000 =
     Ok "Wednesday, 18 May 2033 at 03:33:20 UTC" /\
   unix_to_datetime (cal := utc_calendar) 2000000000 =
     Ok "Wednesday, 18 May 2033 at 03:33:20 UTC") /\
  (2000000000 < 2000000001 /\
   unix_to_datetime (cal := utc_calendar) 2000000001 = Ok invalid_timestamp).
Proof.
  destruct (reinterpretation_boundaries utc_calendar)
    as (_ & Hq & Hi & Ht & _ & _ & Hti).
  split; [split; [lia|apply (Hq 3232235777); lia]|].
  split; [split; [lia|apply Hi; lia]|].
  split; [split; [reflexivity|apply Ht; reflexivity]|].
  split; [lia|apply Hti; lia].
Defined.

(* ===================================================================== *)
(** * Text: digits written and read back *)
(* ===================================================================== *)

Section Text.

Lemma eqb_code c c' : Ascii.eqb c c' = true -> ord c = ord c'.
Proof. intros H. apply Ascii.eqb_eq in H. now subst. Qed.

Lemma plain_not c (b : Z) c' :
  plain b c = true -> plain b c' = false -> Ascii.eqb c c' = false.
Proof.
  intros H H'. destruct (Ascii.eqb c c') eqn:E; [|reflexivity].
  apply Ascii.eqb_eq in E. subst. congruence.
Qed.

Lemma plain_space b c : plain b c = true -> is_space c = false.
Proof. intros H. by_code. Qed.

Lemma chr_ord c : chr (ord c) = c.
Proof. unfold chr, ord. now rewrite N2Z.id, ascii_N_embedding. Qed.

Lemma all_chars_cons P c s :
  all_chars P (String c s) = P c && all_chars P s.
Proof. reflexivity. Qed.

Lemma all_chars_app P s t :
  all_chars P (s ++ t) = all_chars P s && all_chars P t.
Proof.
  induction s as [|c s IH]; [reflexivity|].
  cbn [append]. rewrite !all_chars_cons, IH. now rewrite andb_assoc.
Qed.

Lemma all_chars_impl (P Q : ascii -> bool) s :
  (forall c, P c = true -> Q c = true) ->
  all_chars P s = true -> all_chars Q s = true.
Proof.
  intros H. induction s as [|c s IH]; [reflexivity|].
  rewrite !all_chars_cons, !andb_true_iff. intros [Hc Hs]. auto.
Qed.

Lemma smap_app f s t : smap f (s ++ t) = (smap f s ++ smap f t)%string.
Proof. induction s as [|c s IH]; cbn [append smap]; congruence. Qed.

Lemma smap_id s : smap (fun c => c) s = s.
Proof. induction s as [|c s IH]; cbn [smap]; congruence. Qed.

Lemma smap_fixed f s :
  all_chars (fun c => Ascii.eqb (f c) c) s = true -> smap f s = s.
Proof.
  induction s as [|c s IH]; [reflexivity|].
  rewrite all_chars_cons, andb_true_iff. intros [Hc Hs].
  cbn [smap]. apply Ascii.eqb_eq in Hc. rewrite Hc. now rewrite IH.
Qed.

Lemma append_assoc (s t u : string) : ((s ++ t) ++ u = s ++ (t ++ u))%string.
Proof. induction s as [|c s IH]; cbn [append]; congruence. Qed.

Lemma append_nil_r (s : string) : (s ++ EmptyString)%string = s.
Proof. induction s as [|c s IH]; cbn [append]; congruence. Qed.

(** ** [strip] leaves text without white space alone *)

Lemma lstrip_id s :
  all_chars (fun c => negb (is_space c)) s = true -> lstrip s = s.
Proof.
  destruct s as [|c s]; [reflexivity|].
  rewrite all_chars_cons, andb_true_iff. intros [Hc _].
  cbn [lstrip]. now destruct (is_space c).
Qed.

Lemma rstrip_id s :
  all_chars (fun c => negb (is_space c)) s = true -> rstrip s = s.
Proof.
  induction s as [|c s IH]; [reflexivity|].
  rewrite all_chars_cons, andb_true_iff. intros [Hc Hs].
  cbn [rstrip]. rewrite (IH Hs). destruct s; [|reflexivity].
  now destruct (is_space c).
Qed.

Lemma strip_id s :
  all_chars (fun c => negb (is_space c)) s = true -> strip s = s.
Proof. intros H. unfold strip. now rewrite lstrip_id, rstrip_id. Qed.

(** ** Reading digits *)

Lemma parse_digits_from_plain b s acc :
  all_chars (plain b) s = true ->
  parse_digits_from b s acc false = Some (sval b s acc).
Proof.
  revert acc. induction s as [|c s IH]; intros acc; [reflexivity|].
  rewrite all_chars_cons, andb_true_iff. intros [Hc Hs].
  cbn [parse_digits_from sval].
  rewrite (@plain_not c b "_"%char Hc) by reflexivity.
  unfold plain in Hc. destruct (digit_val c) as [v|]; [|discriminate].
  rewrite Hc. now apply IH.
Qed.

Lemma sval_app b s t acc : sval b (s ++ t) acc = sval b t (sval b s acc).
Proof.
  revert acc. induction s as [|c s IH]; intros acc; [reflexivity|].
  cbn [append sval]. apply IH.
Qed.

Lemma radix_prefix_plain b s :
  all_chars (plain b) s = true -> radix_prefix b s = false.
Proof.
  destruct s as [|c0 [|c s]]; try reflexivity.
  rewrite !all_chars_cons, !andb_true_iff. intros (_ & Hc & _).
  unfold radix_prefix. apply andb_false_iff. right.
  assert (H : forall c' v b', digit_val c' = Some v -> b' <= v ->
                (b =? b') && Ascii.eqb c c' = false).
  { intros c' v b' Hv Hb. destruct (Z.eqb_spec b b') as [->|]; [|reflexivity].
    cbn [andb]. apply (@plain_not c b' c' Hc). unfold plain. rewrite Hv.
    apply Z.ltb_ge. assumption. }
  pose proof (H "x"%char 33 16 eq_refl ltac:(lia)) as Hx.
  pose proof (H "X"%char 33 16 eq_refl ltac:(lia)) as HX.
  pose proof (H "o"%char 24 8 eq_refl ltac:(lia)) as Ho.
  pose proof (H "O"%char 24 8 eq_refl ltac:(lia)) as HO.
  pose proof (H "b"%char 11 2 eq_refl ltac:(lia)) as Hb.
  pose proof (H "B"%char 11 2 eq_refl ltac:(lia)) as HB.
  destruct (b =? 16), (b =? 8), (b =? 2); cbn [andb orb] in *;
    rewrite ?Hx, ?HX, ?Ho, ?HO, ?Hb, ?HB; reflexivity.
Qed.

Lemma count_digits_plain b s :
  all_chars (plain b) s = true -> count_digits s = len s.
Proof.
  unfold len. induction s as [|c s IH]; intros Hs; [reflexivity|].
  rewrite all_chars_cons in Hs. apply andb_true_iff in Hs.
  destruct Hs as [Hc Hs]. cbn [count_digits String.length].
  rewrite (@plain_not c b "_"%char Hc) by reflexivity.
  rewrite IH by assumption. lia.
Qed.

(** [int(text, base)] on text made of digits of the base only. *)
Lemma int_parse_plain_limit b s :
  s <> EmptyString -> all_chars (plain b) s = true ->
  int_parse b s =
  if negb (binary_base b) && (max_str_digits <? len s) then Raise ValueError
  else Ok (sval b s 0).
Proof.
  intros Hne Hs. unfold int_parse.
  rewrite strip_id
    by (eapply all_chars_impl; [|exact Hs]; intros c Hc;
        now rewrite (plain_space _ _ Hc)).
  destruct s as [|c s]; [congruence|].
  pose proof Hs as Hs'. rewrite all_chars_cons, andb_true_iff in Hs'.
  destruct Hs' as [Hc _].
  unfold split_sign.
  rewrite (@plain_not c b "+"%char Hc), (@plain_not c b "-"%char Hc)
    by reflexivity.
  cbv zeta. unfold skip_prefix. rewrite radix_prefix_plain by assumption.
  rewrite (count_digits_plain _ _ Hs).
  unfold parse_digits. rewrite (@plain_not c b "_"%char Hc) by reflexivity.
  now rewrite parse_digits_from_plain by assumption.
Qed.

(** Within the limit on the number of digits, the text is read. *)
Lemma int_parse_plain b s :
  s <> EmptyString -> all_chars (plain b) s = true ->
  binary_base b = true \/ len s <= max_str_digits ->
  int_parse b s = Ok (sval b s 0).
Proof.
  intros Hne Hs Hlim. rewrite int_parse_plain_limit by assumption.
  replace (negb (binary_base b) && (max_str_digits <? len s))
    with false; [reflexivity|].
  symmetry. destruct Hlim as [Hb|Hl]; [now rewrite Hb|].
  apply andb_false_iff. right. now apply Z.ltb_ge.
Qed.

(** ** Writing digits *)

Lemma ord_chr z : 0 <= z < 256 -> ord (chr z) = z.
Proof.
  intros H. unfold ord, chr. rewrite N_ascii_embedding; lia.
Qed.

Lemma digit_char_val d : 0 <= d < 36 -> digit_val (digit_char d) = Some d.
Proof.
  intros H. unfold digit_char, digit_val, is_digit, is_lower, is_upper.
  destruct (Z.ltb_spec d 10); rewrite ord_chr by lia; by_code; f_equal; lia.
Qed.

Lemma digit_char_upper_val d :
  0 <= d < 36 -> digit_val (upper_char (digit_char d)) = Some d.
Proof.
  intros H. unfold upper_char, digit_char, is_lower.
  destruct (Z.ltb_spec d 10); rewrite !ord_chr by lia.
  - replace ((97 <=? 48 + d) && (48 + d <=? 122)) with false by by_code.
    apply (digit_char_val H) || (unfold digit_val, is_digit; rewrite ord_chr by lia;
                               by_code; f_equal; lia).
  - replace ((97 <=? 87 + d) && (87 + d <=? 122)) with true by by_code.
    unfold digit_val, is_digit, is_lower, is_upper. rewrite ord_chr by lia.
    by_code; f_equal; lia.
Qed.

Lemma to_digits_acc fuel b n acc :
  to_digits fuel b n acc = (to_digits fuel b n EmptyString ++ acc)%string.
Proof.
  revert n acc. induction fuel as [|fuel IH]; intros n acc; [reflexivity|].
  cbn [to_digits]. destruct (n / b =? 0); [reflexivity|].
  rewrite IH, (IH _ (String _ EmptyString)), append_assoc. reflexivity.
Qed.

Lemma to_digits_nonempty fuel b n :
  to_digits (S fuel) b n EmptyString <> EmptyString.
Proof.
  cbn [to_digits]. destruct (n / b =? 0); [discriminate|].
  rewrite to_digits_acc. now destruct (to_digits fuel b (n / b) EmptyString).
Qed.

Lemma to_digits_all (P : ascii -> bool) b hc fuel n :
  0 < b -> (forall d, 0 <= d < b -> P (hc (digit_char d)) = true) ->
  all_chars P (smap hc (to_digits fuel b n EmptyString)) = true.
Proof.
  intros Hb HP. revert n. induction fuel as [|fuel IH]; intros n; [reflexivity|].
  cbn [to_digits].
  assert (Hd : P (hc (digit_char (n mod b))) = true)
    by (apply HP, Z.mod_pos_bound; lia).
  destruct (n / b =? 0).
  - cbn [smap]. rewrite all_chars_cons, Hd. reflexivity.
  - rewrite to_digits_acc, smap_app, all_chars_app, IH. cbn [smap].
    rewrite all_chars_cons, Hd. reflexivity.
Qed.

Lemma to_digits_value b hc fuel n :
  2 <= b -> (forall d, 0 <= d < b -> digit_val (hc (digit_char d)) = Some d) ->
  0 <= n < 2 ^ Z.of_nat fuel ->
  sval b (smap hc (to_digits fuel b n EmptyString)) 0 = n.
Proof.
  intros Hb Hv. revert n. induction fuel as [|fuel IH]; intros n Hn.
  - cbn in Hn. cbn. lia.
  - cbn [to_digits].
    pose proof (Z.mod_pos_bound n b ltac:(lia)) as Hm.
    pose proof (Z.div_mod n b ltac:(lia)) as Hdm.
    destruct (Z.eqb_spec (n / b) 0) as [E|E].
    + cbn [smap sval]. rewrite Hv by lia. lia.
    + rewrite to_digits_acc, smap_app, sval_app. cbn [smap sval].
      rewrite Hv by lia. rewrite IH; [lia|].
      rewrite Nat2Z.inj_succ, Z.pow_succ_r in Hn by lia.
      split; [apply Z.div_pos; lia|].
      apply Z.div_lt_upper_bound; [lia|].
      assert (0 < 2 ^ Z.of_nat fuel) by (apply Z.pow_pos_nonneg; lia). nia.
Qed.

Lemma digits_fuel n : 0 <= n -> 0 <= n < 2 ^ Z.of_nat (S (Z.to_nat (Z.log2 n))).
Proof.
  intros Hn. split; [assumption|].
  rewrite Nat2Z.inj_succ, Z2Nat.id by apply Z.log2_nonneg.
  destruct (Z.eq_dec n 0) as [->|]; [reflexivity|].
  apply Z.log2_spec. lia.
Qed.

Lemma smap_nonempty f s : s <> EmptyString -> smap f s <> EmptyString.
Proof. now destruct s. Qed.

(** Digits written in a base parse back in that base, also in upper case. *)
Lemma length_append (s t : string) :
  String.length (s ++ t) = (String.length s + String.length t)%nat.
Proof. induction s as [|c s IH]; cbn; [reflexivity|now rewrite IH]. Qed.

Lemma length_smap f s : String.length (smap f s) = String.length s.
Proof. induction s as [|c s IH]; cbn; [reflexivity|now rewrite IH]. Qed.

(** A number below [b^k] is written with [k] digits at most, and a number
    is below [b] to the number of its digits. *)
Lemma to_digits_length b fuel :
  2 <= b -> forall n k, 0 <= n < b ^ Z.of_nat (S k) ->
  (String.length (to_digits fuel b n EmptyString) <= S k)%nat.
Proof.
  intros Hb. induction fuel as [|fuel IH]; intros n k Hn; [cbn; lia|].
  cbn [to_digits]. destruct (n / b =? 0) eqn:E; [cbn; lia|].
  rewrite to_digits_acc, length_append. cbn [String.length].
  apply Z.eqb_neq in E.
  destruct k as [|k].
  - exfalso. apply E. apply Z.div_small. cbn in Hn. lia.
  - specialize (IH (n / b) k).
    assert (0 <= n / b < b ^ Z.of_nat (S k)); [|lia].
    split; [apply Z.div_pos; lia|].
    apply Z.div_lt_upper_bound; [lia|].
    rewrite (Nat2Z.inj_succ (S k)), Z.pow_succ_r in Hn by lia. lia.
Qed.

Lemma to_digits_below b fuel :
  2 <= b -> forall n, 0 <= n < 2 ^ Z.of_nat fuel ->
  n < b ^ Z.of_nat (String.length (to_digits fuel b n EmptyString)).
Proof.
  intros Hb. induction fuel as [|fuel IH]; intros n Hn; [cbn in *; lia|].
  cbn [to_digits].
  pose proof (Z.mod_pos_bound n b ltac:(lia)) as Hm.
  pose proof (Z.div_mod n b ltac:(lia)) as Hdm.
  destruct (n / b =? 0) eqn:E.
  - apply Z.eqb_eq in E. cbn [String.length]. change (Z.of_nat 1) with 1.
    rewrite Z.pow_1_r. lia.
  - rewrite to_digits_acc, length_append. cbn [String.length].
    assert (Hq : 0 <= n / b < 2 ^ Z.of_nat fuel).
    { split; [apply Z.div_pos; lia|].
      rewrite Nat2Z.inj_succ, Z.pow_succ_r in Hn by lia.
      apply Z.div_lt_upper_bound; [lia|]. nia. }
    specialize (IH _ Hq).
    replace (Z.of_nat (String.length (to_digits fuel b (n / b) EmptyString) + 1))
      with (Z.succ (Z.of_nat (String.length (to_digits fuel b (n / b) EmptyString))))
      by lia.
    rewrite Z.pow_succ_r by lia.
    generalize dependent (b ^ Z.of_nat (String.length (to_digits fuel b (n / b) EmptyString))).
    intros p Hp. nia.
Qed.

Lemma digits_length b n k :
  2 <= b -> 1 <= k -> 0 <= n < b ^ k -> len (digits b n) <= k.
Proof.
  intros Hb Hk Hn. unfold len, digits.
  replace k with (Z.of_nat (S (Z.to_nat (k - 1)))) in * by lia.
  apply inj_le. now apply to_digits_length.
Qed.

Lemma digits_below b n : 2 <= b -> 0 <= n -> n < b ^ len (digits b n).
Proof.
  intros Hb Hn. unfold len, digits. apply to_digits_below; [assumption|].
  now apply digits_fuel.
Qed.

(** Digits written in a base parse back in that base, also in upper case. *)
Lemma int_parse_digits b hc n :
  2 <= b ->
  (forall d, 0 <= d < b -> digit_val (hc (digit_char d)) = Some d) ->
  0 <= n -> binary_base b = true \/ len (digits b n) <= max_str_digits ->
  int_parse b (smap hc (digits b n)) = Ok n.
Proof.
  intros Hb Hv Hn Hlim. unfold digits. rewrite int_parse_plain.
  - f_equal. apply to_digits_value; auto using digits_fuel.
  - apply smap_nonempty, to_digits_nonempty.
  - apply to_digits_all; [lia|]. intros d Hd. unfold plain.
    rewrite Hv by assumption. apply Z.ltb_lt. lia.
  - destruct Hlim as [Hl|Hl]; [now left|right].
    unfold len in *. now rewrite length_smap.
Qed.

(** Text that starts with a character that is neither white space, a sign,
    a zero, an underscore nor a digit of the base does not parse. *)
Lemma int_parse_bad_lead b c s :
  is_space c = false -> plain b c = false ->
  Ascii.eqb c "+" = false -> Ascii.eqb c "-" = false ->
  Ascii.eqb c "0" = false -> Ascii.eqb c "_" = false ->
  all_chars (plain b) s = true ->
  int_parse b (String c s) = Raise ValueError.
Proof.
  intros Hsp Hpl Hplus Hminus Hzero Hus Hs. unfold int_parse.
  rewrite strip_id.
  2:{ rewrite all_chars_cons, Hsp. cbn [negb andb].
      eapply all_chars_impl; [|exact Hs]. intros c' Hc'.
      now rewrite (plain_space _ _ Hc'). }
  unfold split_sign. rewrite Hplus, Hminus. cbv zeta.
  unfold skip_prefix, radix_prefix.
  destruct s as [|c1 s]; cbn [andb]; rewrite ?Hzero; cbn [andb];
    unfold parse_digits; rewrite Hus; cbn [parse_digits_from]; rewrite Hus.
  - unfold plain in Hpl. destruct (digit_val c); [now rewrite Hpl|reflexivity].
  - unfold plain in Hpl. destruct (digit_val c); [now rewrite Hpl|reflexivity].
Qed.

Lemma format_int_nonneg b pre n :
  0 <= n -> format_int b pre n = (pre ++ digits b n)%string.
Proof.
  intros H. unfold format_int.
  replace (n <? 0) with false by (symmetry; apply Z.ltb_ge; lia).
  now rewrite Z.abs_eq.
Qed.

Lemma format_int_neg b pre n :
  n < 0 -> format_int b pre n = String "-" (pre ++ digits b (- n)).
Proof.
  intros H. unfold format_int.
  replace (n <? 0) with true by (symmetry; apply Z.ltb_lt; lia).
  now rewrite Z.abs_neq by lia.
Qed.

End Text.

(* ===================================================================== *)
(** * The base conversions of analyze_number *)
(* ===================================================================== *)

(** For every n >= 0 the three texts parse back to n in their radix. *)
Lemma base_text_roundtrip (n : Z) :
  0 <= n ->
  int_parse 16 (upper (drop 2 (hex n))) = Ok n /\
  int_parse 2 (drop 2 (bin n)) = Ok n /\
  int_parse 8 (drop 2 (oct n)) = Ok n.
Proof.
  intros Hn. unfold hex, bin, oct. rewrite !format_int_nonneg by assumption.
  cbn [append drop]. split; [|split].
  - apply int_parse_digits; [lia| |assumption|now left].
    intros d Hd. apply digit_char_upper_val. lia.
  - rewrite <- (smap_id (digits 2 n)).
    apply int_parse_digits; [lia| |assumption|now left].
    intros d Hd. apply digit_char_val. lia.
  - rewrite <- (smap_id (digits 8 n)).
    apply int_parse_digits; [lia| |assumption|now left].
    intros d Hd. apply digit_char_val. lia.
Qed.

(** C2 (the code at the failing inputs). For a negative n the slice [[2:]]
    removes the sign and the zero of the prefix and keeps its letter: the
    texts of -255 are XFF, b11111111 and o377, and for every n < 0 none of
    the three texts parses in its radix. *)
Theorem base_text_negative :
  (upper (drop 2 (hex (-255))) = "XFF" /\
   drop 2 (bin (-255)) = "b11111111" /\
   drop 2 (oct (-255)) = "o377") /\
  (forall n, n < 0 ->
     int_parse 16 (upper (drop 2 (hex n))) = Raise ValueError /\
     int_parse 2 (drop 2 (bin n)) = Raise ValueError /\
     int_parse 8 (drop 2 (oct n)) = Raise ValueError).
Proof.
  split; [repeat split|]. intros n Hn. unfold hex, bin, oct.
  rewrite !format_int_neg by assumption. cbn [append drop].
  unfold upper. cbn [smap]. unfold digits. split; [|split].
  - apply int_parse_bad_lead; try reflexivity.
    apply to_digits_all; [lia|]. intros d Hd. unfold plain.
    rewrite digit_char_upper_val by lia. apply Z.ltb_lt. lia.
  - apply int_parse_bad_lead; try reflexivity.
    rewrite <- (smap_id (to_digits _ _ _ _)).
    apply to_digits_all; [lia|]. intros d Hd. unfold plain.
    rewrite digit_char_val by lia. apply Z.ltb_lt. lia.
  - apply int_parse_bad_lead; try reflexivity.
    rewrite <- (smap_id (to_digits _ _ _ _)).
    apply to_digits_all; [lia|]. intros d Hd. unfold plain.
    rewrite digit_char_val by lia. apply Z.ltb_lt. lia.
Qed.

Lemma base_text_negative_witness :
  -255 < 0 /\
  int_parse 16 (upper (drop 2 (hex (-255)))) = Raise ValueError /\
  int_parse 2 (drop 2 (bin (-255))) = Raise ValueError /\
  int_parse 8 (drop 2 (oct (-255))) = Raise ValueError.
Proof.
  split; [lia|]. destruct base_text_negative as [_ H]. apply H. lia.
Defined.

(* ===================================================================== *)
(** * true.py: the letter-index codec *)
(* ===================================================================== *)

Section CodecLemmas.

Lemma str_nonneg k : 0 <= k -> str k = digits 10 k.
Proof. intros H. unfold str. now rewrite format_int_nonneg. Qed.

(** [int(str(k))] is [k], as long as the text has 4300 digits at most. *)
Lemma int_parse_str k :
  0 <= k -> len (str k) <= max_str_digits -> int_parse 10 (str k) = Ok k.
Proof.
  intros H Hlim. rewrite str_nonneg in * by assumption.
  rewrite <- (smap_id (digits 10 k)).
  apply int_parse_digits; [lia| |assumption|now right].
  intros d Hd. apply digit_char_val. lia.
Qed.

Lemma str_digits k : 0 <= k -> all_chars is_digit (str k) = true.
Proof.
  intros H. rewrite str_nonneg by assumption. unfold digits.
  rewrite <- (smap_id (to_digits _ _ _ _)). apply to_digits_all; [lia|].
  intros d Hd. unfold digit_char, is_digit.
  replace (d <? 10) with true by (symmetry; apply Z.ltb_lt; lia).
  rewrite ord_chr by lia. by_code.
Qed.

Lemma isdigit_str k : isdigit (str k) = (0 <=? k).
Proof.
  destruct (Z.leb_spec 0 k) as [H|H].
  - pose proof (str_digits H) as Hd. unfold isdigit.
    rewrite str_nonneg in * by assumption. unfold digits in *.
    pose proof (@to_digits_nonempty (Z.to_nat (Z.log2 k)) 10 k) as Hne.
    destruct (to_digits _ _ _ _); [congruence|exact Hd].
  - unfold str. now rewrite format_int_neg by assumption.
Qed.

Lemma is_digit_not_dot c : is_digit c = true -> negb (Ascii.eqb c ".") = true.
Proof.
  intros H. destruct (Ascii.eqb c ".") eqn:E; [|reflexivity].
  apply Ascii.eqb_eq in E. subst. discriminate.
Qed.

Lemma str_no_dot k : all_chars (fun c => negb (Ascii.eqb c ".")) (str k) = true.
Proof.
  destruct (Z_le_gt_dec 0 k) as [H|H].
  - eapply all_chars_impl; [apply is_digit_not_dot|]. now apply str_digits.
  - unfold str. rewrite format_int_neg by lia. cbn [append].
    rewrite all_chars_cons. cbn [negb Ascii.eqb andb].
    eapply all_chars_impl; [apply is_digit_not_dot|].
    rewrite <- str_nonneg by lia. apply str_digits. lia.
Qed.

(** ** [split] undoes [join] *)

Lemma split_from_app sep s t cur :
  all_chars (fun c => negb (Ascii.eqb c sep)) s = true ->
  split_from sep (s ++ t) cur = split_from sep t (cur ++ s).
Proof.
  revert cur. induction s as [|c s IH]; intros cur Hs.
  - cbn [append]. now rewrite append_nil_r.
  - rewrite all_chars_cons, andb_true_iff in Hs. destruct Hs as [Hc Hs].
    cbn [append split_from]. apply negb_true_iff in Hc. rewrite Hc.
    rewrite IH by assumption. now rewrite append_assoc.
Qed.

Lemma split_join (l : list string) :
  l <> [] ->
  Forall (fun x => all_chars (fun c => negb (Ascii.eqb c ".")) x = true) l ->
  split "." (join "." l) = l.
Proof.
  intros Hne Hl. unfold split. induction Hl as [|x l Hx Hl IH]; [congruence|].
  destruct l as [|y r].
  - cbn [join]. rewrite <- (append_nil_r x) at 1.
    now rewrite split_from_app by assumption.
  - change (join "." (x :: y :: r))
      with (x ++ String "." (join "." (y :: r)))%string.
    rewrite split_from_app by assumption. cbn [split_from append].
    rewrite Ascii.eqb_refl. f_equal. apply IH. discriminate.
Qed.

(** ** Decoding a list of indices *)

(** Past 4300 digits [int] refuses the text of a number. *)
Lemma int_parse_str_limit k :
  0 <= k -> max_str_digits < len (str k) ->
  int_parse 10 (str k) = Raise ValueError.
Proof.
  intros H0 Hk. pose proof (str_digits H0) as Hd.
  rewrite int_parse_plain_limit.
  - replace (max_str_digits <? len (str k)) with true; [reflexivity|].
    symmetry. now apply Z.ltb_lt.
  - intros E. pose proof (isdigit_str k) as Hi. rewrite E in Hi.
    cbn [isdigit] in Hi. symmetry in Hi. apply Z.leb_gt in Hi. lia.
  - eapply all_chars_impl; [|exact Hd]. clear. intros c Hc.
    unfold plain, digit_val. rewrite Hc. apply Z.ltb_lt. revert Hc. by_code.
Qed.

(** The numbers of 4300 digits at most are those below 10^4300. *)
Lemma small_below_limit k : k < 1000 -> k < 10 ^ 4300.
Proof.
  intros Hk.
  assert (H : 10 ^ 3 <= 10 ^ 4300) by (apply Z.pow_le_mono_r; easy).
  change (10 ^ 3) with 1000 in H.
  revert Hk H. generalize (10 ^ 4300). clear. intros; lia.
Qed.

Lemma str_within_limit k :
  0 <= k -> k < 10 ^ 4300 -> len (str k) <= max_str_digits.
Proof.
  intros H0 Hk. rewrite str_nonneg by assumption.
  apply digits_length; [clear; lia|clear; unfold max_str_digits; lia|].
  split; assumption.
Qed.

Lemma str_beyond_limit k :
  10 ^ 4300 <= k -> 0 <= k /\ max_str_digits < len (str k).
Proof.
  intros Hk.
  assert (Hpos : 0 < 10 ^ 4300) by (apply Z.pow_pos_nonneg; easy).
  assert (H0 : 0 <= k)
    by (revert Hk Hpos; generalize (10 ^ 4300); clear; intros; lia).
  split; [exact H0|].
  destruct (Z_lt_le_dec max_str_digits (len (str k))) as [|Hle];
    [assumption|exfalso].
  assert (Hb : k < 10 ^ len (str k)).
  { rewrite str_nonneg by assumption. apply digits_below; [clear; lia|assumption]. }
  assert (Hm : 10 ^ len (str k) <= 10 ^ 4300)
    by (apply Z.pow_le_mono_r; [easy|exact Hle]).
  revert Hk Hb Hm. generalize (10 ^ 4300), (10 ^ len (str k)). clear.
  intros; lia.
Qed.

(** Whether the text of a number passes [int], when it reaches it. *)
Lemma decoder_step_str acc k :
  (0 <= k -> len (str k) <= max_str_digits) ->
  decoder_step acc (str k) =
  Ok (if valid_index k then acc ++ String (chr (k + 64)) EmptyString
      else acc)%string.
Proof.
  intros Hlim. unfold decoder_step. rewrite isdigit_str.
  destruct (Z.leb_spec 0 k) as [H|H].
  - rewrite int_parse_str by auto. cbn [obind].
    unfold valid_index.
    destruct ((1 <=? k) && (k <=? 26)); [|reflexivity].
    replace (k + ord "A" - 1) with (k + 64)
      by (change (ord "A") with 65; lia).
    reflexivity.
  - unfold valid_index.
    replace (1 <=? k) with false by (symmetry; apply Z.leb_gt; lia).
    reflexivity.
Qed.

Lemma decoder_step_str_limit acc k :
  0 <= k -> max_str_digits < len (str k) ->
  decoder_step acc (str k) = Raise ValueError.
Proof.
  intros H0 Hk. unfold decoder_step. rewrite isdigit_str.
  replace (0 <=? k) with true by (symmetry; now apply Z.leb_le).
  now rewrite int_parse_str_limit.
Qed.

Lemma decoder_loop_str ks acc :
  Forall (fun k => 0 <= k -> len (str k) <= max_str_digits) ks ->
  decoder_loop (map str ks) acc =
  Ok (acc ++ letters (filter valid_index ks))%string.
Proof.
  intros Hks. revert acc.
  induction Hks as [|k ks Hk Hks IH]; intros acc.
  - cbn. now rewrite append_nil_r.
  - cbn [map decoder_loop filter]. rewrite decoder_step_str by assumption.
    cbn [obind]. rewrite IH. destruct (valid_index k); [|reflexivity].
    unfold letters. cbn [map string_of_list_ascii].
    now rewrite append_assoc.
Qed.

Lemma decoder_loop_str_limit ks :
  Exists (fun k => 0 <= k /\ max_str_digits < len (str k)) ks ->
  forall acc, decoder_loop (map str ks) acc = Raise ValueError.
Proof.
  induction 1 as [k ks [H0 Hk]|k ks Hks IH]; intros acc;
    cbn [map decoder_loop].
  - now rewrite decoder_step_str_limit.
  - destruct (Z_lt_le_dec k 0) as [Hn|Hn];
      [|destruct (Z_lt_le_dec max_str_digits (len (str k))) as [Hk|Hk]].
    + rewrite decoder_step_str by lia. cbn [obind]. apply IH.
    + now rewrite decoder_step_str_limit.
    + rewrite decoder_step_str by (intros _; exact Hk). cbn [obind]. apply IH.
Qed.

Lemma split_join_str ks :
  ks <> [] -> split "." (join "." (map str ks)) = map str ks.
Proof.
  intros Hne. apply split_join; [now destruct ks|].
  apply Forall_forall. intros x Hx. apply in_map_iff in Hx.
  destruct Hx as (j & <- & _). apply str_no_dot.
Qed.

Lemma decoder_sequence_join ks :
  Forall (fun k => 0 <= k -> len (str k) <= max_str_digits) ks ->
  decoder_sequence (join "." (map str ks)) =
  Ok (letters (filter valid_index ks)).
Proof.
  intros Hks. unfold decoder_sequence. destruct ks as [|k ks]; [reflexivity|].
  rewrite split_join_str by discriminate. now apply decoder_loop_str.
Qed.

Lemma decoder_sequence_limit ks :
  Exists (fun k => 0 <= k /\ max_str_digits < len (str k)) ks ->
  decoder_sequence (join "." (map str ks)) = Raise ValueError.
Proof.
  intros Hks. unfold decoder_sequence.
  destruct ks as [|k ks]; [inversion Hks|].
  rewrite split_join_str by discriminate. now apply decoder_loop_str_limit.
Qed.

(** What [encoder_mot] writes for a character is far within the limit. *)
Lemma index_within_limit (w : string) :
  Forall (fun k => 0 <= k -> len (str k) <= max_str_digits)
         (map (fun c => ord c - 64) (chars w)).
Proof.
  apply Forall_map, Forall_forall. intros c _ H0.
  assert (Hc : ord c < 256).
  { unfold ord. pose proof (N_ascii_bounded c). lia. }
  rewrite str_nonneg by assumption.
  apply Z.le_trans with (m := 3); [|unfold max_str_digits; lia].
  apply digits_length; lia.
Qed.

(** ** Encoding a word of capital letters *)

Lemma filter_all {A} (P : A -> bool) l : forallb P l = true -> filter P l = l.
Proof.
  induction l as [|a l IH]; [reflexivity|]. cbn [forallb filter].
  rewrite andb_true_iff. intros [Ha Hl]. rewrite Ha. now rewrite IH.
Qed.

Lemma encoder_mot_upper w :
  uppercase_word w ->
  encoder_mot w = join "." (map str (map (fun c => ord c - 64) (chars w))).
Proof.
  intros Hw. unfold uppercase_word in Hw. unfold encoder_mot, upper.
  rewrite smap_fixed.
  2:{ eapply all_chars_impl; [|exact Hw]. intros c Hc. unfold upper_char.
      replace (is_lower c) with false by by_code. apply Ascii.eqb_refl. }
  rewrite strip_id.
  2:{ eapply all_chars_impl; [|exact Hw]. intros c Hc.
      replace (is_space c) with false by by_code. reflexivity. }
  rewrite filter_all.
  2:{ eapply all_chars_impl; [|exact Hw]. intros c Hc. unfold is_alpha.
      now rewrite Hc. }
  rewrite map_map. f_equal. apply map_ext. intros c.
  f_equal. change (ord "A") with 65. lia.
Qed.

Lemma letters_indices w :
  uppercase_word w ->
  letters (filter valid_index (map (fun c => ord c - 64) (chars w))) = w.
Proof.
  intros Hw. unfold uppercase_word, all_chars in Hw.
  rewrite filter_all.
  - unfold letters. rewrite map_map.
    erewrite map_ext; [rewrite map_id; apply string_of_list_ascii_of_string|].
    intros c. cbn beta. replace (ord c - 64 + 64) with (ord c) by lia.
    apply chr_ord.
  - rewrite forallb_forall in *. intros k Hk. apply in_map_iff in Hk.
    destruct Hk as (c & <- & Hc). specialize (Hw c Hc).
    unfold valid_index. by_code.
Qed.

End CodecLemmas.

(** C10 (the round trip, and the code at the failing input). For every
    word w made of the letters A to Z, [encoder_mot] gives the 1-based
    alphabet indices of its letters joined by dots, and decoding that gives
    w back. [decoder_sequence] turns the numbers of [[1, 26]] of a
    dot-separated sequence into their letters and drops the others, as long
    as each number has 4300 digits at most; on the sequence 1, 10^4300, 2
    (and on every sequence that holds a number of more digits) it raises
    ValueError instead of dropping the number: the test [isdigit] lets the
    text through to [int], which refuses it. *)
Theorem codec_roundtrip :
  (forall w, uppercase_word w ->
     encoder_mot w = join "." (map (fun c => str (ord c - 64)) (chars w)) /\
     decoder_sequence (encoder_mot w) = Ok w) /\
  (forall ks, Forall (fun k => k < 10 ^ 4300) ks ->
     decoder_sequence (join "." (map str ks)) =
     Ok (letters (filter valid_index ks))) /\
  decoder_sequence (join "." (map str [1; 10 ^ 4300; 2])) =
    Raise ValueError /\
  (forall ks, Exists (fun k => 10 ^ 4300 <= k) ks ->
     decoder_sequence (join "." (map str ks)) = Raise ValueError).
Proof.
  split; [|split; [|split]].
  - intros w Hw. rewrite encoder_mot_upper by assumption. split.
    + now rewrite map_map.
    + rewrite decoder_sequence_join by apply index_within_limit.
      f_equal. now apply letters_indices.
  - intros ks Hks. apply decoder_sequence_join.
    eapply Forall_impl; [|exact Hks]. intros k Hk H0.
    now apply str_within_limit.
  - apply decoder_sequence_limit. apply Exists_cons_tl, Exists_cons_hd.
    apply str_beyond_limit, Z.le_refl.
  - intros ks Hks. apply decoder_sequence_limit.
    eapply Exists_impl; [|exact Hks]. intros k Hk.
    now apply str_beyond_limit.
Qed.

Lemma codec_roundtrip_witness :
  (uppercase_word "PAYS" /\
   encoder_mot "PAYS" = "16.1.25.19" /\
   decoder_sequence (encoder_mot "PAYS") = Ok "PAYS") /\
  (Forall (fun k => k < 10 ^ 4300) [16; 0; 27; 1; -5] /\
   decoder_sequence (join "." (map str [16; 0; 27; 1; -5])) = Ok "PA") /\
  (Exists (fun k => 10 ^ 4300 <= k) [10 ^ 4300] /\
   decoder_sequence (join "." (map str [10 ^ 4300])) = Raise ValueError).
Proof.
  destruct codec_roundtrip as (H & Hks & _ & Hlim).
  assert (F : Forall (fun k => k < 10 ^ 4300) [16; 0; 27; 1; -5])
    by (repeat (apply Forall_cons; [apply small_below_limit; reflexivity|]);
        apply Forall_nil).
  assert (E : Exists (fun k => 10 ^ 4300 <= k) [10 ^ 4300])
    by (apply Exists_cons_hd; apply Z.le_refl).
  split; [split; [reflexivity|apply (H "PAYS"); reflexivity]|].
  split; [split; [exact F|exact (Hks _ F)]|].
  split; [exact E|exact (Hlim _ E)].
Defined.

(* ===================================================================== *)
(** * analyze_number *)
(* ===================================================================== *)

Section Analyze.

Lemma mono_convert_hundreds num : mono (convert_hundreds num).
Proof.
  intros f. revert num. induction f as [|f IH]; intros num f' r Hf H; [discriminate|].
  destruct f' as [|f']; [lia|]. cbn [convert_hundreds] in *.
  destruct (num =? 0); [exact H|]. destruct (num <? 10); [exact H|].
  destruct (num <? 20); [exact H|]. destruct (num <? 100); [exact H|].
  destruct (getitem units (num / 100)); [|exact H].
  destruct (negb (num mod 100 =? 0)); [|exact H].
  destruct (convert_hundreds (num mod 100) f) as [o|] eqn:E; [|discriminate].
  rewrite (IH _ f' o ltac:(lia) E). exact H.
Qed.

Lemma mono_english_body s : mono (english_body s).
Proof.
  unfold english_body. apply mono_bind; [|intros; apply mono_ret].
  destruct (negb (e_n s mod 1000 =? 0)); [|apply mono_ret].
  apply mono_bind; [apply mono_convert_hundreds|]. intros part.
  apply mono_bind; [|intros; apply mono_ret].
  destruct (0 <? e_chunk_count s); [|apply mono_ret].
  apply mono_bind; [apply mono_lift|intros; apply mono_ret].
Qed.

Lemma mono_number_to_english n : mono (number_to_english n).
Proof.
  intros f. revert n. induction f as [|f IH]; intros n f' r Hf H; [discriminate|].
  destruct f' as [|f']; [lia|]. cbn [number_to_english] in *.
  destruct (n =? 0); [exact H|]. destruct (n <? 0).
  - destruct (number_to_english (- n) f) as [o|] eqn:E; [|discriminate].
    rewrite (IH _ f' o ltac:(lia) E). exact H.
  - revert H. apply mono_bind; [|intros; apply mono_ret|lia].
    apply mono_while. apply mono_english_body.
Qed.

Lemma mono_previous_primes_loop count s : mono (previous_primes_loop count s).
Proof.
  unfold previous_primes_loop. apply mono_while. intros s'.
  apply mono_bind; [apply mono_lift|intros; apply mono_ret].
Qed.

Lemma mono_find_previous_primes n count : mono (find_previous_primes n count).
Proof.
  unfold find_previous_primes.
  apply mono_bind; [apply mono_previous_primes_loop|intros; apply mono_ret].
Qed.

Context {cal : Calendar}.

Lemma mono_analyze_number n : mono (analyze_number n).
Proof.
  unfold analyze_number.
  repeat (cbv zeta; apply mono_bind; [|intros ?]); cbv zeta;
    auto using mono_number_to_english, mono_factorize,
               mono_previous_primes_loop, mono_lift, mono_ret.
Qed.

(** The digit sum of the text of a negative number stops at its sign. *)
Lemma sum_digits_negative n acc :
  n < 0 -> sum_digits (chars (str n)) acc = Raise ValueError.
Proof.
  intros H. unfold str. now rewrite format_int_neg by assumption.
Qed.

(** ** Where a record comes back *)

Lemma getitem_ok {A} (l : list A) i :
  0 <= i < Z.of_nat (List.length l) -> exists a, getitem l i = Ok a.
Proof.
  intros Hi. unfold getitem.
  assert (E0 : (i <? 0) = false) by (apply Z.ltb_ge; lia).
  rewrite E0. cbv beta iota zeta. rewrite E0.
  destruct (nth_error l (Z.to_nat i)) as [a|] eqn:E; [now exists a|].
  apply nth_error_None in E. lia.
Qed.

Lemma convert_tens_returns num f :
  0 <= num < 100 -> exists w, convert_hundreds num (S f) = Some (Ok w).
Proof.
  intros Hn. cbn [convert_hundreds].
  destruct (Z.eqb_spec num 0); [eauto|].
  destruct (Z.ltb_spec num 10).
  { destruct (@getitem_ok _ units num) as [w ->]; [cbn; lia|eauto]. }
  destruct (Z.ltb_spec num 20).
  { destruct (@getitem_ok _ teens (num - 10)) as [w ->]; [cbn; lia|eauto]. }
  destruct (Z.ltb_spec num 100); [|lia].
  assert (0 <= num / 10 < 10)
    by (split; [apply Z.div_pos|apply Z.div_lt_upper_bound]; lia).
  pose proof (Z.mod_pos_bound num 10 ltac:(lia)).
  destruct (@getitem_ok _ tens (num / 10)) as [t ->]; [cbn; lia|].
  cbn [obind]. destruct (negb (num mod 10 =? 0)); [|eauto].
  destruct (@getitem_ok _ units (num mod 10)) as [u ->]; [cbn; lia|].
  cbn [obind]. eauto.
Qed.

Lemma convert_hundreds_returns num :
  0 <= num < 1000 -> exists w, returns (convert_hundreds num) w.
Proof.
  intros Hn.
  assert (H : forall f, exists w, convert_hundreds num (S (S f)) = Some (Ok w)).
  { intros f. destruct (Z_lt_ge_dec num 100) as [Hlt|Hge].
    - apply convert_tens_returns. lia.
    - cbn [convert_hundreds].
      replace (num =? 0) with false by (symmetry; apply Z.eqb_neq; lia).
      replace (num <? 10) with false by (symmetry; apply Z.ltb_ge; lia).
      replace (num <? 20) with false by (symmetry; apply Z.ltb_ge; lia).
      replace (num <? 100) with false by (symmetry; apply Z.ltb_ge; lia).
      assert (0 <= num / 100 < 10)
        by (split; [apply Z.div_pos|apply Z.div_lt_upper_bound]; lia).
      destruct (@getitem_ok _ units (num / 100)) as [u ->]; [cbn; lia|].
      destruct (negb (num mod 100 =? 0)); [|eauto].
      destruct (@convert_tens_returns (num mod 100) f) as [w Hw];
        [apply Z.mod_pos_bound; lia|].
      cbn [convert_hundreds] in Hw. rewrite Hw. eauto. }
  destruct (H 0%nat) as [w Hw]. exists w.
  apply mono_yields with (f := 2%nat); [apply mono_convert_hundreds|exact Hw].
Qed.

Lemma english_body_returns s :
  0 < e_n s -> 0 <= e_chunk_count s <= 3 ->
  exists parts,
    returns (english_body s)
            (EState (e_n s / 1000) parts (e_chunk_count s + 1)).
Proof.
  intros Hn Hc. unfold english_body.
  destruct (negb (e_n s mod 1000 =? 0)).
  - destruct (@convert_hundreds_returns (e_n s mod 1000)) as [w Hw];
      [apply Z.mod_pos_bound; lia|].
    destruct (Z.ltb_spec 0 (e_chunk_count s)).
    + destruct (@getitem_ok _ thousands (e_chunk_count s)) as [th Hth]; [cbn; lia|].
      eexists. eapply yields_bind; [|apply returns_ret].
      eapply yields_bind; [exact Hw|].
      eapply yields_bind; [|apply returns_ret].
      eapply yields_bind; [rewrite Hth; apply yields_lift|apply returns_ret].
    + eexists. eapply yields_bind; [|apply returns_ret].
      eapply yields_bind; [exact Hw|].
      eapply yields_bind; [apply returns_ret|apply returns_ret].
  - eexists. eapply yields_bind; apply returns_ret.
Qed.

Lemma number_to_english_returns n :
  0 <= n < 10 ^ 12 -> exists w, returns (number_to_english n) w.
Proof.
  intros [Hn0 Hn].
  destruct (Z.eq_dec n 0) as [->|Hne].
  { exists "zero". exists 1%nat. intros [|f] Hf; [lia|reflexivity]. }
  destruct (@while_returns estate (fun s => 0 <? e_n s) english_body
              (fun s => 0 <= e_n s /\ 0 <= e_chunk_count s <= 4 /\
                        e_n s * 1000 ^ e_chunk_count s < 10 ^ 12)
              (fun s => Z.to_nat (e_n s))) with (s := EState n [] 0)
    as (s' & Hret & _ & _).
  - intros s (H0 & Hc & Hb) Hcond. apply Z.ltb_lt in Hcond.
    assert (Hc3 : e_chunk_count s <= 3).
    { destruct (Z.eq_dec (e_chunk_count s) 4) as [E|]; [|lia].
      rewrite E in Hb. change (1000 ^ 4) with (10 ^ 12) in Hb. nia. }
    destruct (@english_body_returns s Hcond ltac:(lia)) as [parts Hp].
    eexists. split; [exact Hp|]. cbn [e_n e_chunk_count].
    pose proof (Z.div_mod (e_n s) 1000 ltac:(lia)) as Hdm.
    pose proof (Z.mod_pos_bound (e_n s) 1000 ltac:(lia)) as Hm.
    split; [split; [apply Z.div_pos; lia|split; [lia|]]|].
    + rewrite Z.pow_add_r by lia. change (1000 ^ 1) with 1000.
      assert (0 < 1000 ^ e_chunk_count s) by (apply Z.pow_pos_nonneg; lia).
      nia.
    + assert (e_n s / 1000 < e_n s) by (apply Z.div_lt; lia). lia.
  - cbn [e_n e_chunk_count]. change (1000 ^ 0) with 1. lia.
  - assert (Hy : returns (s <- while (fun s => 0 <? e_n s) english_body
                                 (EState n [] 0) ;;
                          ret (join " " (rev (e_parts s))))
                         (join " " (rev (e_parts s'))))
      by (eapply yields_bind; [exact Hret|apply returns_ret]).
    destruct Hy as [f0 Hf0]. eexists. exists (S f0).
    intros [|f] Hf; [lia|]. cbn [number_to_english].
    replace (n =? 0) with false by (symmetry; apply Z.eqb_neq; lia).
    replace (n <? 0) with false by (symmetry; apply Z.ltb_ge; lia).
    apply Hf0. lia.
Qed.

Lemma sum_digits_ok l acc :
  forallb is_digit l = true -> exists v, sum_digits l acc = Ok v.
Proof.
  revert acc. induction l as [|d l IH]; intros acc Hl; cbn [sum_digits].
  - eauto.
  - cbn [forallb] in Hl. apply andb_true_iff in Hl. destruct Hl as [Hd Hl].
    rewrite int_parse_plain;
      [cbn [obind]; now apply IH|discriminate| |right; now cbv].
    rewrite all_chars_cons. cbn [all_chars chars list_ascii_of_string forallb].
    rewrite andb_true_r. clear -Hd. unfold plain. by_code.
Qed.

Lemma int_parse_cases b s :
  (exists v, int_parse b s = Ok v) \/ int_parse b s = Raise ValueError.
Proof.
  unfold int_parse. destruct (split_sign (strip s)) as [neg s2]. cbv zeta.
  destruct (parse_digits b (skip_prefix b s2)); [|eauto].
  destruct (negb (binary_base b) &&
            (max_str_digits <? count_digits (skip_prefix b s2))); eauto.
Qed.

Lemma hex_to_rgb_ok s : exists c, hex_to_rgb s = Ok c.
Proof.
  unfold hex_to_rgb.
  destruct (int_parse_cases 16 (slice 0 2 (zfill 6 s))) as [[r ->]| ->];
    cbn [obind try_except]; [|eauto].
  destruct (int_parse_cases 16 (slice 2 4 (zfill 6 s))) as [[g ->]| ->];
    cbn [obind try_except]; [|eauto].
  destruct (int_parse_cases 16 (slice 4 6 (zfill 6 s))) as [[b ->]| ->];
    cbn [obind try_except]; eauto.
Qed.

(** From 10^12 on the scale words run out. *)
Lemma number_to_english_raises n :
  10 ^ 12 <= n -> raises (number_to_english n) IndexError.
Proof.
  intros Hn. change (10 ^ 12) with 1000000000000 in Hn.
  destruct (@while_terminates estate (fun s => 0 <? e_n s) english_body
              (fun s => 1 <= e_n s /\ 0 <= e_chunk_count s /\
                        (e_chunk_count s < 4 ->
                         1000 ^ (4 - e_chunk_count s) <= e_n s))
              (fun e => e = IndexError)
              (fun s => Z.to_nat (e_n s))) with (s := EState n [] 0)
    as [(s' & _ & (H1 & _) & Hc)|(e & He & ->)].
  - intros s (H1 & Hc0 & Hb) _.
    pose proof (Z.div_mod (e_n s) 1000 ltac:(lia)) as Hdm.
    pose proof (Z.mod_pos_bound (e_n s) 1000 ltac:(lia)) as Hm.
    assert (Hlt : e_n s / 1000 < e_n s) by (apply Z.div_lt; lia).
    destruct (Z_lt_ge_dec (e_chunk_count s) 4) as [Hc4|Hc4].
    + left. destruct (@english_body_returns s ltac:(lia) ltac:(lia)) as [parts Hp].
      eexists. split; [exact Hp|]. cbn [e_n e_chunk_count].
      specialize (Hb Hc4).
      assert (Hpow : 1000 ^ (4 - e_chunk_count s) =
                     1000 * 1000 ^ (4 - (e_chunk_count s + 1))).
      { rewrite <- Z.pow_succ_r by lia. f_equal. lia. }
      assert (0 < 1000 ^ (4 - (e_chunk_count s + 1)))
        by (apply Z.pow_pos_nonneg; lia).
      split; [|lia]. split; [|split; [lia|]].
      * apply Z.div_le_lower_bound; lia.
      * intros _. apply Z.div_le_lower_bound; lia.
    + unfold english_body. destruct (Z.eqb_spec (e_n s mod 1000) 0) as [E0|E0];
        cbn [negb].
      * left. eexists. split; [eapply yields_bind; apply returns_ret|].
        cbn [e_n e_chunk_count]. split; [|lia]. split; [|split; lia].
        apply Z.div_le_lower_bound; lia.
      * right. exists IndexError. split; [|reflexivity].
        destruct (@convert_hundreds_returns (e_n s mod 1000)) as [w Hw]; [lia|].
        apply raises_bind. eapply yields_bind; [exact Hw|].
        replace (0 <? e_chunk_count s) with true
          by (symmetry; apply Z.ltb_lt; lia).
        apply raises_bind, raises_bind.
        replace (getitem thousands (e_chunk_count s)) with (@Raise string IndexError);
          [apply yields_lift|].
        unfold getitem.
        replace (e_chunk_count s <? 0) with false
          by (symmetry; apply Z.ltb_ge; lia).
        cbv beta iota zeta.
        replace (e_chunk_count s <? 0) with false
          by (symmetry; apply Z.ltb_ge; lia).
        destruct (nth_error thousands (Z.to_nat (e_chunk_count s))) eqn:E;
          [|reflexivity].
        assert (Hl : nth_error thousands (Z.to_nat (e_chunk_count s)) <> None)
          by congruence.
        apply nth_error_Some in Hl. cbn in Hl. lia.
  - cbn [e_n e_chunk_count]. change (1000 ^ (4 - 0)) with 1000000000000. lia.
  - apply Z.ltb_ge in Hc. lia.
  - assert (Hy : raises (s <- while (fun s => 0 <? e_n s) english_body
                                (EState n [] 0) ;;
                         ret (join " " (rev (e_parts s)))) IndexError)
      by (apply raises_bind; exact He).
    destruct Hy as [f0 Hf0]. exists (S f0).
    intros [|f] Hf; [lia|]. cbn [number_to_english].
    replace (n =? 0) with false by (symmetry; apply Z.eqb_neq; lia).
    replace (n <? 0) with false by (symmetry; apply Z.ltb_ge; lia).
    apply Hf0. lia.
Qed.

(** From 0 up to, not including, 10^12 a record comes back, provided that
    the calendar does not fail with an exception that is not caught. *)
Lemma analyze_number_returns n t :
  0 <= n < 10 ^ 12 -> unix_to_datetime n = Ok t ->
  exists r, returns (analyze_number n) r.
Proof.
  intros Hn Ht.
  assert (Hsmall : n < 2 ^ 52) by (change (10 ^ 12) with 1000000000000 in Hn;
                                   change (2 ^ 52) with 4503599627370496; lia).
  destruct (number_to_english_returns Hn) as [w Hw].
  assert (Hf : exists l, returns (factorize n) l).
  { destruct (Z_lt_ge_dec n 2).
    - eexists. now apply factorize_small.
    - destruct (@factorize_returns n ltac:(lia)) as (l & Hl & _). eauto. }
  destruct Hf as [l Hl].
  assert (Had : forall c, 2 <= c < n -> sqrt_adequate c)
    by (intros c Hc; apply sqrt_adequate_small; unfold sqrt_exact_bound; lia).
  assert (Hp : is_prime n = Ok (prime_b n)).
  { apply is_prime_prime_b. destruct (Z_lt_ge_dec n 2); [now left|right].
    apply sqrt_adequate_small. unfold sqrt_exact_bound. lia. }
  pose proof (find_previous_primes_spec 8 Had) as Hpp.
  destruct (@float_ok_small n ltac:(lia)) as ([x Hx] & [h Hh] & [q Hq]).
  destruct (@sum_digits_ok (chars (str n)) 0) as [ds Hds];
    [apply str_digits; lia|].
  destruct (@is_fibonacci_nonneg n ltac:(lia)) as (fb & Hfb & _).
  destruct (hex_to_rgb_ok (upper (drop 2 (hex n)))) as [c Hc].
  unfold analyze_number. rewrite Hp, Hh, Hds, Hfb, Hq, Hx, Ht, Hc.
  cbn [obind]. eexists.
  repeat (cbv zeta;
          eapply yields_bind; [first [eassumption|apply yields_lift]|]).
  apply returns_ret.
Qed.

(** From 10^12 on [analyze_number] raises IndexError. *)
Lemma analyze_number_large n :
  10 ^ 12 <= n -> raises (analyze_number n) IndexError.
Proof.
  intros Hn. unfold analyze_number. cbv zeta.
  apply raises_bind. now apply number_to_english_raises.
Qed.

(** No record comes back for a negative number. *)
Lemma analyze_number_negative n r : n < 0 -> ~ returns (analyze_number n) r.
Proof.
  intros Hn [f H]. specialize (H f (le_n f)).
  unfold analyze_number, bind, lift in H.
  rewrite sum_digits_negative in H by assumption.
  cbv beta zeta in H.
  repeat match type of H with
         | match ?c with _ => _ end = _ =>
             (destruct c as [[?|?]|] || destruct c as [?|?]);
             try discriminate; cbv beta zeta in H
         end.
Qed.

(** The three base texts of a record that comes back. *)
Lemma analyze_number_base_fields n r :
  returns (analyze_number n) r ->
  decimal r = n /\ hexadecimal r = upper (drop 2 (hex n)) /\
  binary r = drop 2 (bin n) /\ octal r = drop 2 (oct n).
Proof.
  intros [f H]. specialize (H f (le_n f)).
  unfold analyze_number, bind, lift, ret in H. cbv beta zeta in H.
  repeat match type of H with
         | match ?c with _ => _ end = _ =>
             (destruct c as [[?|?]|] || destruct c as [?|?]);
             try discriminate; cbv beta zeta in H
         end.
  injection H as <-. cbn. auto.
Qed.

End Analyze.

(** C1 (the code at the failing inputs). [analyze_number] raises instead of
    returning a record: ValueError for -1, where the digit sum meets the
    sign of the text (and the square root would be out of its domain), and
    IndexError for 10^12, where the scale words run out. No negative
    number gets a record and every number from 10^12 on raises IndexError;
    a record comes back exactly in between, provided that the calendar
    does not fail with an exception that is not caught. *)
Theorem analyze_number_raises (cal : Calendar) :
  raises (analyze_number (-1)) ValueError /\
  math_sqrt (-1) = Raise ValueError /\
  raises (analyze_number (10 ^ 12)) IndexError /\
  (forall n r, n < 0 -> ~ returns (analyze_number n) r) /\
  (forall n, 10 ^ 12 <= n -> raises (analyze_number n) IndexError) /\
  (forall n t, 0 <= n < 10 ^ 12 -> unix_to_datetime n = Ok t ->
               exists r, returns (analyze_number n) r).
Proof.
  split; [|split; [|split; [|split; [|split]]]].
  - apply mono_yields with (f := 10%nat); [apply mono_analyze_number|].
    vm_compute. reflexivity.
  - reflexivity.
  - apply analyze_number_large. lia.
  - intros n r. apply analyze_number_negative.
  - apply analyze_number_large.
  - apply analyze_number_returns.
Qed.

Lemma analyze_number_raises_witness :
  (-255 < 0 /\
   forall r, ~ returns (analyze_number (cal := utc_calendar) (-255)) r) /\
  (10 ^ 12 <= 10 ^ 15 /\
   raises (analyze_number (cal := utc_calendar) (10 ^ 15)) IndexError) /\
  (0 <= 7 < 10 ^ 12 /\
   unix_to_datetime (cal := utc_calendar) 7 =
     Ok "Thursday, 01 January 1970 at 00:00:07 UTC" /\
   exists r, returns (analyze_number (cal := utc_calendar) 7) r).
Proof.
  destruct (analyze_number_raises utc_calendar) as (_ & _ & _ & Hneg & Hbig & Hmid).
  split; [split; [lia|intros r; apply Hneg; lia]|].
  split; [split; [lia|apply Hbig; lia]|].
  split; [lia|]. split; [reflexivity|].
  apply (Hmid 7 "Thursday, 01 January 1970 at 00:00:07 UTC"); [lia|reflexivity].
Defined.

(** The record of 255, for the text [t] the calendar gives. *)
Lemma analyze_number_255_record (cal : Calendar) (t : string) :
  unix_to_datetime 255 = Ok t ->
  exists r,
    returns (analyze_number 255) r /\
    hexadecimal r = "FF" /\ binary r = "11111111" /\ octal r = "377" /\
    parity r = "Odd" /\ factors r = [3; 5; 17] /\
    color_hex r = "#0000FF" /\ rgb r = (0, 0, 255) /\ unix_time r = t.
Proof.
  intros Ht.
  assert (H : exists r, analyze_number 255 300%nat = Some (Ok r) /\
            hexadecimal r = "FF" /\ binary r = "11111111" /\ octal r = "377" /\
            parity r = "Odd" /\ factors r = [3; 5; 17] /\
            color_hex r = "#0000FF" /\ rgb r = (0, 0, 255) /\ unix_time r = t).
  { unfold analyze_number. rewrite Ht. eexists. split; [lazy; reflexivity|].
    cbn. repeat split. }
  destruct H as (r & Hr & Hfields). exists r. split; [|exact Hfields].
  apply mono_yields with (f := 300%nat); [apply mono_analyze_number|exact Hr].
Qed.

(** C8 (as amended). For the input 255, whatever text the calendar of the
    platform gives, the record has hexadecimal text FF, binary text
    11111111, octal text 377, parity Odd, prime factors 3, 5, 17, the
    color field #0000FF and the RGB triple (0, 0, 255). *)
Theorem analyze_number_255 (cal : Calendar) (t : string) :
  unix_to_datetime 255 = Ok t ->
  exists r,
    returns (analyze_number 255) r /\
    hexadecimal r = "FF" /\ binary r = "11111111" /\ octal r = "377" /\
    parity r = "Odd" /\ factors r = [3; 5; 17] /\
    color_hex r = "#0000FF" /\ rgb r = (0, 0, 255) /\ unix_time r = t.
Proof. apply analyze_number_255_record. Qed.

Lemma analyze_number_255_witness :
  unix_to_datetime (cal := utc_calendar) 255 =
    Ok "Thursday, 01 January 1970 at 00:04:15 UTC" /\
  exists r,
    returns (analyze_number (cal := utc_calendar) 255) r /\
    hexadecimal r = "FF" /\ binary r = "11111111" /\ octal r = "377" /\
    parity r = "Odd" /\ factors r = [3; 5; 17] /\
    color_hex r = "#0000FF" /\ rgb r = (0, 0, 255) /\
    unix_time r = "Thursday, 01 January 1970 at 00:04:15 UTC".
Proof.
  split; [reflexivity|].
  apply (@analyze_number_255 utc_calendar). reflexivity.
Defined.

(** C8, as stated, fails: the parity of 255 is Odd, not Even, and the
    color field carries its leading [#]. *)
Lemma analyze_number_255_parity :
  exists r,
    returns (analyze_number (cal := utc_calendar) 255) r /\
    parity r <> "Even" /\ color_hex r <> "0000FF".
Proof.
  destruct (@analyze_number_255_record utc_calendar _ eq_refl)
    as (r & Hr & _ & _ & _ & Hp & _ & Hc & _).
  exists r. split; [exact Hr|]. rewrite Hp, Hc. split; discriminate.
Qed.
